(** * Verification of scripts/translation.py

    A shallow embedding of the translation script: the dictionary cache
    ([TranslationDictionary]), the progress tracker ([ProgressBar]), the
    translation client ([translate_text]), the two schema-driven tree walks
    and the orchestrator ([main], [translate_contributions_file]), followed
    by the properties of the specification that concern them.

    Modelling conventions.
    - A Python [str] is a Rocq [string]; each character stands for one code
      point below 256, and [py_isspace] is [str.isspace] on that range.
    - A parsed JSON document is a [Value].  [json.load] builds a tree without
      sharing, so the in-place updates [obj[key] = ...] and [value[i] = ...]
      are modelled by rebuilding the tree: the walks return the mutated tree.
    - A Python [dict] keeps its keys unique and iterates in insertion order:
      an object is the list of its (key, value) pairs in that order.
    - The dictionary cache maps [str] to [str]; it is a [gmap string string],
      and the cache file is identified with the mapping it holds.
    - Statements run in a state-and-outcome monad: a call returns, leaves
      through [sys.exit], or raises an exception nobody catches.
    - The translation provider and the delivery of signals are an
      environment [Env] the program cannot influence.  A signal is taken at
      a call site of [translate_text]; an interrupt during a request is the
      answer [KeyboardInterrupt].
    - Not modelled: what is printed, failures of file I/O, and the limit on
      the depth of recursion. *)

From Stdlib Require Import String Ascii ZArith List Lia Bool.
From stdpp Require Import base gmap strings list.

Local Open Scope string_scope.
Local Open Scope list_scope.

(** ** Document trees *)

Unset Elimination Schemes.
Inductive Value : Type :=
| VNull
| VBool (b : bool)
| VNum (literal : string)
| VStr (s : string)
| VArr (items : list Value)
| VObj (fields : list (string * Value)).
Set Elimination Schemes.

(** Structural induction that reaches the elements of arrays and the values
    of objects. *)
Section ValueInduction.
Variable P : Value -> Prop.
Hypothesis Hnull : P VNull.
Hypothesis Hbool : forall b, P (VBool b).
Hypothesis Hnum : forall n, P (VNum n).
Hypothesis Hstr : forall s, P (VStr s).
Hypothesis Harr : forall items, Forall P items -> P (VArr items).
Hypothesis Hobj : forall fields, Forall (fun kv => P (snd kv)) fields -> P (VObj fields).

Fixpoint Value_ind (v : Value) : P v :=
  match v with
  | VNull => Hnull
  | VBool b => Hbool b
  | VNum n => Hnum n
  | VStr s => Hstr s
  | VArr items =>
      Harr items
        ((fix all (l : list Value) : Forall P l :=
            match l with
            | [] => @List.Forall_nil _ P
            | x :: r => @List.Forall_cons _ P x r (Value_ind x) (all r)
            end) items)
  | VObj fields =>
      Hobj fields
        ((fix all (l : list (string * Value)) : Forall (fun kv => P (snd kv)) l :=
            match l with
            | [] => @List.Forall_nil _ _
            | kv :: r => @List.Forall_cons _ _ kv r (Value_ind (snd kv)) (all r)
            end) fields)
  end.
End ValueInduction.

(** [isinstance(value, str)] and [isinstance(value, list)]. *)
Definition is_str (v : Value) : bool :=
  match v with VStr _ => true | _ => false end.

Definition is_list (v : Value) : bool :=
  match v with VArr _ => true | _ => false end.

(** The payload of a value already known to be a [str], or a [list]. *)
Definition text_of (v : Value) : string :=
  match v with VStr s => s | _ => "" end.

Definition items_of (v : Value) : list Value :=
  match v with VArr items => items | _ => [] end.

(** ** Python string operations used by the script *)

(** [str.isspace] on one character, for code points below 256:
    U+0009..U+000D, U+001C..U+001F, U+0020, U+0085 and U+00A0. *)
Definition py_isspace (c : ascii) : bool :=
  let n := nat_of_ascii c in
  (Nat.leb 9 n && Nat.leb n 13) || (Nat.leb 28 n && Nat.leb n 31)
  || Nat.eqb n 32 || Nat.eqb n 133 || Nat.eqb n 160.

Fixpoint lstrip_chars (l : list ascii) : list ascii :=
  match l with
  | c :: r => if py_isspace c then lstrip_chars r else l
  | [] => []
  end.

(** [text.strip()]: whitespace removed at both ends. *)
Definition strip (text : string) : string :=
  string_of_list_ascii
    (rev (lstrip_chars (rev (lstrip_chars (list_ascii_of_string text))))).

(** Truth value of a [str]: false exactly for the empty string. *)
Definition truthy (text : string) : bool :=
  match text with EmptyString => false | String _ _ => true end.

(** The guard of [translate_text]: [not text or not text.strip()]. *)
Definition is_blank (text : string) : bool :=
  negb (truthy text) || negb (truthy (strip text)).

(** [key in keys] on a list of strings. *)
Definition py_in (key : string) (keys : list string) : bool :=
  existsb (String.eqb key) keys.
Arguments py_in : simpl never.

(** ** Constants of the module *)

Definition REPLACE_TARGET_KEYS : list string :=
  ["title"; "label"; "contents"; "displayName"; "description";
   "markdownDescription"].

Definition DICTIONARY_FILE : string := "translation_dictionary.json".
Definition PACKAGE_JSON_PATH : string := "package.json".
Definition CONTRIBUTIONS_JSON_PATH : string := "contributions.json".

(** ** Count passes *)

(** [sum(f(x) for x in l)]. *)
Definition py_sum {A} (f : A -> nat) (l : list A) : nat :=
  fold_right (fun x acc => f x + acc) 0 l.

Fixpoint count_translatable_items (obj : Value) : nat :=
  match obj with
  | VObj fields =>
      py_sum (fun kv =>
        let '(key, value) := kv in
        if py_in key REPLACE_TARGET_KEYS && is_str value then 1
        else if String.eqb key "enumDescriptions" && is_list value then
          py_sum (fun item => if is_str item then 1 else 0) (items_of value)
        else count_translatable_items value) fields
  | VArr items => py_sum count_translatable_items items
  | _ => 0
  end.

Fixpoint count_contributions_translatable_items (obj : Value) : nat :=
  match obj with
  | VObj fields =>
      py_sum (fun kv =>
        let '(key, value) := kv in
        if String.eqb key "label" && is_str value then 1
        else if String.eqb key "name" && is_str value then 1
        else if String.eqb key "contents" && is_str value then 1
        else if py_in key ["title"; "description"] then
          count_contributions_translatable_items value
        else count_contributions_translatable_items value) fields
  | VArr items => py_sum count_contributions_translatable_items items
  | _ => 0
  end.

(** ** Objects of a run *)

(** The argument handed to [TranslationDictionary]: a plain [str] or a
    [pathlib.Path].  Only a [Path] has the method [exists()]. *)
Inductive PathLike : Type :=
| PyStr (s : string)
| PyPath (s : string).

Record TranslationDictionary : Type := {
  file_path : PathLike;
  dictionary : gmap string string
}.

(** The counters of [ProgressBar]; [width] and [desc] only feed [draw]. *)
Record ProgressBar : Type := {
  total : nat;
  current : nat;
  api_calls : nat;
  cache_hits : nat
}.

(** What one [requests.post] leads to inside the [try] of [translate_text]. *)
Inductive Response : Type :=
| Reply (content : string)
    (* 2xx answer whose body holds choices[0].message.content *)
| Timeout                 (* requests.exceptions.Timeout *)
| RequestException        (* transport failure or HTTP error status *)
| JSONDecodeError         (* the body is not JSON *)
| Unexpected              (* any other Exception: unexpected body shape *)
| KeyboardInterrupt.      (* the interrupt arrives while the call is pending *)

(** Calls on the collaborating objects, kept as a trace (most recent first). *)
Inductive Event : Type :=
| CacheExists (text : string)
| CacheGet (text : string)
| CacheSet (text translated : string)
| CacheSave
| Update (api_call cache_hit : bool)
| Post (text : string) (response : Response)
    (* one request to the provider and what came of it *)
| LogError (failure : Response).

Inductive Exn : Type :=
| AttributeError        (* 'str' object has no attribute 'exists' *)
| UnboundLocalError     (* local variable read before assignment *)
| JSONError.            (* json.load on a file that is not JSON *)

Record St : Type := {
  dict : TranslationDictionary;            (* the object named dictionary *)
  dict_file : option (gmap string string); (* content of the cache file *)
  bar : ProgressBar;                       (* the progress object in use *)
  clock : nat;                             (* interactions with the environment *)
  trace : list Event
}.

(** The environment: the provider's answer to a request, and whether a
    SIGINT or SIGTERM is pending when the program reaches a leaf; both may
    depend on how far the run has come. *)
Record Env : Type := {
  provider : nat -> string -> string -> Response; (* clock, api_key, text *)
  signal : nat -> bool
}.

Inductive Outcome (A : Type) : Type :=
| Ret (a : A) (s : St)       (* the call returns a *)
| Exit (code : Z) (s : St)   (* sys.exit(code) *)
| Raise (e : Exn) (s : St).  (* an exception that is not caught *)
Arguments Ret {A} a s.
Arguments Exit {A} code s.
Arguments Raise {A} e s.

Definition M (A : Type) : Type := St -> Outcome A.

Definition ret {A} (a : A) : M A := fun s => Ret a s.

Definition bind {A B} (m : M A) (k : A -> M B) : M B :=
  fun s =>
    match m s with
    | Ret a s' => k a s'
    | Exit c s' => Exit c s'
    | Raise e s' => Raise e s'
    end.

Definition sys_exit {A} (code : Z) : M A := fun s => Exit code s.

Declare Scope py_scope.
Delimit Scope py_scope with py.
Notation "x <- m ;; k" := (bind m (fun x => k))
  (at level 100, m at next level, right associativity) : py_scope.
Notation "m ;; k" := (bind m (fun _ => k))
  (at level 100, right associativity) : py_scope.
Local Open Scope py_scope.

(** The state an outcome ends in. *)
Definition final_state {A} (o : Outcome A) : St :=
  match o with Ret _ s | Exit _ s | Raise _ s => s end.

Definition fmap_outcome {A B} (f : A -> B) (o : Outcome A) : Outcome B :=
  match o with
  | Ret a s => Ret (f a) s
  | Exit c s => Exit c s
  | Raise e s => Raise e s
  end.

Definition emit (e : Event) : M unit :=
  fun s => Ret tt {| dict := dict s; dict_file := dict_file s; bar := bar s;
                     clock := clock s; trace := e :: trace s |}.

Definition tick (s : St) : St :=
  {| dict := dict s; dict_file := dict_file s; bar := bar s;
     clock := S (clock s); trace := trace s |}.

(** [for x in l: ys.append(f(x))], stopping at the first call that does not
    return. *)
Section MapM.
Context {A B : Type}.
Variable f : A -> M B.

Fixpoint mapM (l : list A) : M (list B) :=
  match l with
  | [] => ret []
  | x :: r => y <- f x ;; ys <- mapM r ;; ret (y :: ys)
  end.
End MapM.

(** *** class TranslationDictionary *)
Module Dictionary.

Definition with_dictionary (d : gmap string string) (s : St) : St :=
  {| dict := {| file_path := file_path (dict s); dictionary := d |};
     dict_file := dict_file s; bar := bar s; clock := clock s;
     trace := trace s |}.

Definition with_file (f : option (gmap string string)) (s : St) : St :=
  {| dict := dict s; dict_file := f; bar := bar s; clock := clock s;
     trace := trace s |}.

(** [load]: [self.file_path.exists()] is a method of [Path] only. *)
Definition load : M unit :=
  fun s =>
    match file_path (dict s) with
    | PyStr _ => Raise AttributeError s
    | PyPath _ =>
        match dict_file s with
        | Some stored => Ret tt (with_dictionary stored s)
        | None => Ret tt s
        end
    end.

(** [__init__]: the object starts empty and loads its file. *)
Definition init (path : PathLike) : M unit :=
  fun s =>
    load {| dict := {| file_path := path; dictionary := ∅ |};
            dict_file := dict_file s; bar := bar s; clock := clock s;
            trace := trace s |}.

(** [save]: the file is rewritten with the whole mapping. *)
Definition save : M unit :=
  emit CacheSave ;;
  fun s => Ret tt (with_file (Some (dictionary (dict s))) s).

Definition get (text : string) : M (option string) :=
  emit (CacheGet text) ;;
  fun s => Ret (dictionary (dict s) !! text) s.

Definition set (text translated : string) : M unit :=
  emit (CacheSet text translated) ;;
  (fun s => Ret tt (with_dictionary (<[text := translated]> (dictionary (dict s))) s)) ;;
  save.

Definition exists_ (text : string) : M bool :=
  emit (CacheExists text) ;;
  fun s => Ret (bool_decide (is_Some (dictionary (dict s) !! text))) s.

End Dictionary.

(** *** class ProgressBar *)
Module Progress.

Definition with_bar (b : ProgressBar) (s : St) : St :=
  {| dict := dict s; dict_file := dict_file s; bar := b; clock := clock s;
     trace := trace s |}.

(** [ProgressBar(total, desc=...)]. *)
Definition new (n : nat) : M unit :=
  fun s => Ret tt (with_bar {| total := n; current := 0; api_calls := 0;
                               cache_hits := 0 |} s).

(** [update]; the redraw has no effect on the state. *)
Definition update (n : nat) (api_call cache_hit : bool) : M unit :=
  emit (Update api_call cache_hit) ;;
  fun s =>
    let b := bar s in
    Ret tt (with_bar {| total := total b;
                        current := current b + n;
                        api_calls := if api_call then api_calls b + 1 else api_calls b;
                        cache_hits := if cache_hit then cache_hits b + 1 else cache_hits b |} s).

End Progress.

(** ** The translation client *)

Section Client.
Variable env : Env.

(** [requests.post] with the payload built around [text]. *)
Definition post (api_key text : string) : M Response :=
  fun s =>
    let response := provider env (clock s) api_key text in
    (emit (Post text response) ;; ret response) (tick s).

Definition log_error (failure : Response) : M unit :=
  emit (LogError failure).

Definition translate_text (text : string) (api_key : string) : M string :=
  if is_blank text then ret text
  else
    hit <- Dictionary.exists_ text ;;
    if hit : bool then
      Progress.update 1 false true ;;
      cached <- Dictionary.get text ;;
      match cached with
      | Some translated => ret translated
      | None => ret text (* not reached: exists held *)
      end
    else
      Progress.update 1 true false ;;
      response <- post api_key text ;;
      match response with
      | Reply content =>
          let translated := strip content in
          Dictionary.set text translated ;;
          ret translated
      | KeyboardInterrupt => Dictionary.save ;; sys_exit 0
      | Timeout => log_error Timeout ;; ret text
      | RequestException => log_error RequestException ;; ret text
      | JSONDecodeError => log_error JSONDecodeError ;; ret text
      | Unexpected => log_error Unexpected ;; ret text
      end.

(** [signal_handler]: save the dictionary and leave with status 0. *)
Definition signal_handler {A} : M A :=
  Dictionary.save ;; sys_exit 0.

(** A leaf of a walk: a pending signal runs the handler in place of the
    call. *)
Definition at_leaf {A} (call : M A) : M A :=
  fun s => if signal env (clock s) then signal_handler (tick s) else call (tick s).

End Client.

(** ** The tree walks *)

Section Walks.
Variable env : Env.
Variable api_key : string.

(** One call site [... = translate_text(text, dictionary, progress, api_key)]. *)
Definition leaf (text : string) : M string :=
  at_leaf env (translate_text env text api_key).

(** The loop over an [enumDescriptions] list: strings are replaced, any
    other element is left alone. *)
Definition translate_enum_item (item : Value) : M Value :=
  match item with
  | VStr s => r <- leaf s ;; ret (VStr r)
  | _ => ret item
  end.

(** Settings schema (package.json). *)
Fixpoint traverse_and_translate (obj : Value) : M Value :=
  match obj with
  | VObj fields =>
      fields' <- mapM (fun kv =>
        let '(key, value) := kv in
        if py_in key REPLACE_TARGET_KEYS && is_str value then
          r <- leaf (text_of value) ;; ret (key, VStr r)
        else if String.eqb key "enumDescriptions" && is_list value then
          items' <- mapM translate_enum_item (items_of value) ;;
          ret (key, VArr items')
        else
          value' <- traverse_and_translate value ;; ret (key, value')) fields ;;
      ret (VObj fields')
  | VArr items => items' <- mapM traverse_and_translate items ;; ret (VArr items')
  | _ => ret obj
  end.

(** Contributions schema (contributions.json): the closure
    [translate_in_object] of [translate_contributions_file]. *)
Fixpoint translate_in_object (obj : Value) : M Value :=
  match obj with
  | VObj fields =>
      fields' <- mapM (fun kv =>
        let '(key, value) := kv in
        if String.eqb key "label" && is_str value then
          r <- leaf (text_of value) ;; ret (key, VStr r)
        else if String.eqb key "name" && is_str value then
          r <- leaf (text_of value) ;; ret (key, VStr r)
        else if String.eqb key "contents" && is_str value then
          r <- leaf (text_of value) ;; ret (key, VStr r)
        else if py_in key ["title"; "description"] && is_str value then
          r <- leaf (text_of value) ;; ret (key, VStr r)
        else
          value' <- translate_in_object value ;; ret (key, value')) fields ;;
      ret (VObj fields')
  | VArr items => items' <- mapM translate_in_object items ;; ret (VArr items')
  | _ => ret obj
  end.

End Walks.

(** ** The orchestrator *)

(** The state of a fresh process: no dictionary object yet, the cache file
    as found. *)
Definition boot (stored : option (gmap string string)) : St :=
  {| dict := {| file_path := PyStr DICTIONARY_FILE; dictionary := ∅ |};
     dict_file := stored;
     bar := {| total := 0; current := 0; api_calls := 0; cache_hits := 0 |};
     clock := 0; trace := [] |}.

Section Orchestrator.
(** The [json] module: what a file holds is some type [Bytes];
    [json_load] parses it (or fails), [json_dump indent] prints a tree with
    [ensure_ascii=False]. *)
Context {Bytes : Type}.
Variable json_load : Bytes -> option Value.
Variable json_dump : nat -> Value -> Bytes.
Variable env : Env.

(** The document files, by path: a [gmap string Bytes]. *)

Definition translate_contributions_file (file_path api_key : string)
    (fs : gmap string Bytes) (s : St) : gmap string Bytes * Outcome bool :=
  match fs !! file_path with
  | None => (fs, Ret false s)
  | Some bytes =>
      match json_load bytes with
      | None => (fs, Raise JSONError s)
      | Some data =>
          let total_items := count_contributions_translatable_items data in
          if Nat.eqb total_items 0 then (fs, Ret true s)
          else
            let already_translated := size (dictionary (dict s)) in
            let remaining := (Z.of_nat total_items - Z.of_nat already_translated)%Z in
            match (Progress.new total_items ;; translate_in_object env api_key data) s with
            | Ret data' s' => (<[file_path := json_dump 4 data']> fs, Ret true s')
            | Exit c s' => (fs, Exit c s')
            | Raise e s' => (fs, Raise e s')
            end
      end
  end.

(** Lines 304 to 356 of [main]: what follows the statement
    [dictionary = TranslationDictionary(...)], as a function of the state
    that statement leaves.  [main], below, runs the constructor first and
    comes here only if it returns.  The local variable [progress] is
    assigned in the [else] branch only: [Some] when it is bound, [None] when
    [remaining <= 0]. *)
Definition main_after_init (api_key : string) (fs : gmap string Bytes) (s : St)
    : gmap string Bytes * Outcome unit :=
  if negb (truthy api_key) then (fs, Exit 1 s)
  else
    match fs !! PACKAGE_JSON_PATH with
    | None => (fs, Exit 1 s)
    | Some bytes =>
        match json_load bytes with
        | None => (fs, Raise JSONError s)
        | Some data =>
            let total_items := count_translatable_items data in
            let already_translated := size (dictionary (dict s)) in
            let remaining := (Z.of_nat total_items - Z.of_nat already_translated)%Z in
            let walk : M (Value * option ProgressBar) :=
              if (remaining <=? 0)%Z then
                Progress.new total_items ;;
                data' <- traverse_and_translate env api_key data ;;
                ret (data', None)
              else
                Progress.new total_items ;;
                data' <- traverse_and_translate env api_key data ;;
                fun s' => Ret (data', Some (bar s')) s'
            in
            match walk s with
            | Ret (data', progress) s1 =>
                match progress with
                | None => (fs, Raise UnboundLocalError s1)
                | Some _ =>
                    let fs1 := <[PACKAGE_JSON_PATH := json_dump 2 data']> fs in
                    match translate_contributions_file CONTRIBUTIONS_JSON_PATH api_key fs1 s1 with
                    | (fs2, Ret _ s2) => (fs2, Dictionary.save s2)
                    | (fs2, Exit c s2) => (fs2, Exit c s2)
                    | (fs2, Raise e s2) => (fs2, Raise e s2)
                    end
                end
            | Exit c s1 => (fs, Exit c s1)
            | Raise e s1 => (fs, Raise e s1)
            end
        end
    end.

(** [main]: [api_key] is what [get_api_key()] returns. *)
Definition main (api_key : string) (fs : gmap string Bytes)
    (stored : option (gmap string string)) : gmap string Bytes * Outcome unit :=
  match Dictionary.init (PyStr DICTIONARY_FILE) (boot stored) with
  | Ret _ s => main_after_init api_key fs s
  | Exit c s => (fs, Exit c s)
  | Raise e s => (fs, Raise e s)
  end.

End Orchestrator.

(** The state once a dictionary object has been constructed on a [Path] to
    the cache file. *)
Definition loaded (stored : option (gmap string string)) : St :=
  final_state (Dictionary.init (PyPath DICTIONARY_FILE) (boot stored)).

(** ** Vocabulary of the properties *)

(** Readings of a trace. *)
Definition is_update (e : Event) : bool :=
  match e with Update _ _ => true | _ => false end.

Definition is_post (e : Event) : bool :=
  match e with Post _ _ => true | _ => false end.

Definition is_log_error (e : Event) : bool :=
  match e with LogError _ => true | _ => false end.

Fixpoint count_if {A} (p : A -> bool) (l : list A) : nat :=
  match l with
  | [] => 0
  | x :: r => (if p x then 1 else 0) + count_if p r
  end.

Definition count_events (p : Event -> bool) (s : St) : nat :=
  count_if p (trace s).

(** The settings rule in the words of the specification: what becomes of a
    (key, value) pair of an object the walk visits. *)
Definition SETTINGS_KEYS : list string :=
  ["title"; "label"; "contents"; "displayName"; "description";
   "markdownDescription"].

Inductive Selection : Type :=
| ScalarLeaf (text : string)      (* a string under one of the keys: a leaf *)
| EnumList (items : list Value)   (* an array under enumDescriptions *)
| Visit (value : Value).          (* anything else: the walk goes into it *)

Definition settings_rule (key : string) (value : Value) : Selection :=
  match value with
  | VStr text =>
      if bool_decide (key ∈ SETTINGS_KEYS) then ScalarLeaf text else Visit value
  | VArr items =>
      if bool_decide (key = "enumDescriptions") then EnumList items
      else Visit value
  | _ => Visit value
  end.

(** The strings a walk hands to [translate_text], in the order of the walk. *)
Definition enum_leaf (item : Value) : list string :=
  match item with VStr s => [s] | _ => [] end.

Fixpoint settings_leaves (obj : Value) : list string :=
  match obj with
  | VObj fields =>
      flat_map (fun kv =>
        let '(key, value) := kv in
        if py_in key REPLACE_TARGET_KEYS && is_str value then [text_of value]
        else if String.eqb key "enumDescriptions" && is_list value then
          flat_map enum_leaf (items_of value)
        else settings_leaves value) fields
  | VArr items => flat_map settings_leaves items
  | _ => []
  end.

Fixpoint contributions_leaves (obj : Value) : list string :=
  match obj with
  | VObj fields =>
      flat_map (fun kv =>
        let '(key, value) := kv in
        if py_in key ["label"; "name"; "contents"; "title"; "description"]
           && is_str value
        then [text_of value]
        else contributions_leaves value) fields
  | VArr items => flat_map contributions_leaves items
  | _ => []
  end.

(** No object of the document holds a string under [title] or
    [description]. *)
Fixpoint no_text_title (obj : Value) : bool :=
  match obj with
  | VObj fields =>
      forallb (fun kv =>
        let '(key, value) := kv in
        negb (py_in key ["title"; "description"] && is_str value)
        && no_text_title value) fields
  | VArr items => forallb no_text_title items
  | _ => true
  end.

Definition blanks (texts : list string) : nat :=
  count_if is_blank texts.

(** The environment never interrupts: no signal, no [KeyboardInterrupt]. *)
Definition no_interrupt (env : Env) : Prop :=
  (forall c, signal env c = false) /\
  (forall c k t, provider env c k t <> KeyboardInterrupt).


(** A leaf got its normal result: a blank text passed through, any other
    text replaced by the entry the cache holds for it. *)
Definition resolved (cache : gmap string string) (leaf_in_out : string * string) : bool :=
  let '(t, o) := leaf_in_out in
  if is_blank t then bool_decide (o = t)
  else bool_decide (cache !! t = Some o).

Definition resolved_count (cache : gmap string string)
    (ins outs : list string) : nat :=
  count_if (resolved cache) (zip ins outs).

(** Every answer of the provider seen so far is in the dictionary. *)
Definition recorded (s : St) : Prop :=
  forall t content,
    In (Post t (Reply content)) (trace s) ->
    dictionary (dict s) !! t = Some (strip content).

(** An entry is both in memory and in the cache file. *)
Definition durable (t r : string) (s : St) : Prop :=
  dictionary (dict s) !! t = Some r /\
  exists stored, dict_file s = Some stored /\ stored !! t = Some r.

(** Files as trees: a concrete [json] for examples, where a file is the
    indentation it was printed with and the tree it holds. *)
Module TreeFiles.
Definition Bytes : Type := nat * Value.
Definition json_load (b : Bytes) : option Value := Some (snd b).
Definition json_dump (indent : nat) (v : Value) : Bytes := (indent, v).
End TreeFiles.

(** The two field-selection rules, and what each document type uses. *)
Inductive Schema : Type :=
| Settings        (* package.json *)
| Contributions.  (* contributions.json *)

Definition count_pass (schema : Schema) : Value -> nat :=
  match schema with
  | Settings => count_translatable_items
  | Contributions => count_contributions_translatable_items
  end.

Definition translate_pass (env : Env) (api_key : string) (schema : Schema)
    : Value -> M Value :=
  match schema with
  | Settings => traverse_and_translate env api_key
  | Contributions => translate_in_object env api_key
  end.

Definition leaves_of (schema : Schema) : Value -> list string :=
  match schema with
  | Settings => settings_leaves
  | Contributions => contributions_leaves
  end.

(** Documents on which the count pass of the rule sees every leaf. *)
Definition count_covers (schema : Schema) (doc : Value) : bool :=
  match schema with
  | Settings => true
  | Contributions => no_text_title doc
  end.

(** The pass of the orchestrator over one document: a fresh progress bar
    sized by the count pass, then the walk. *)
Definition run_pass (env : Env) (api_key : string) (schema : Schema)
    (data : Value) : M Value :=
  Progress.new (count_pass schema data) ;;
  translate_pass env api_key schema data.

(** The state a pass starts from, after [ProgressBar(total_items, ...)]. *)
Definition fresh_bar (n : nat) (s : St) : St :=
  Progress.with_bar {| total := n; current := 0; api_calls := 0;
                       cache_hits := 0 |} s.

(** A request to the provider that carries the text [t]. *)
Definition is_request_for (t : string) (e : Event) : bool :=
  match e with Post text _ => String.eqb text t | _ => false end.

(** Environments for the examples: a provider that answers every request
    with the text in angle brackets and some padding, with no interrupt, and
    the same provider with a signal pending at the third interaction. *)
Definition echo_env : Env :=
  {| provider := fun _ _ text => Reply (" <" ++ text ++ "> ");
     signal := fun _ => false |}.

Definition interrupted_env : Env :=
  {| provider := fun _ _ text => Reply (" <" ++ text ++ "> ");
     signal := fun c => Nat.eqb c 2 |}.

(** A provider that times out on its first request only. *)
Definition flaky_env : Env :=
  {| provider := fun c _ text =>
       if Nat.leb c 1 then Timeout else Reply (" <" ++ text ++ "> ");
     signal := fun _ => false |}.

(** ** Further parts of the script *)

(** *** get_api_key *)
Module Cli.

(** What [parser.parse_args()] returns: [--api-key/-k] and [--key/-K], each
    [None] when the option is absent. *)
Record Namespace : Type := {
  api_key : option string;
  env_key : option string
}.

(** [os.environ.get(name, default)]. *)
Definition environ_get (environ : gmap string string) (name default : string)
    : string :=
  match environ !! name with
  | Some value => value
  | None => default
  end.

(** [if option:] on an optional string: [None] and [""] are false. *)
Definition given (option : option string) : bool :=
  match option with
  | Some value => truthy value
  | None => false
  end.

Definition get_api_key (args : Namespace) (environ : gmap string string)
    : string :=
  if given (api_key args) then
    match api_key args with Some key => key | None => "" end
  else if given (env_key args) then
    match env_key args with
    | Some name =>
        environ_get environ name (environ_get environ "DEEPSEEK_API_KEY" "")
    | None => ""
    end
  else environ_get environ "DEEPSEEK_API_KEY" "".

End Cli.

(** *** log, log_error, log_warning *)
Module Log.

(** The two switches read from the environment when the module is loaded. *)
Record Flags : Type := {
  GITHUB_ACTIONS : bool;
  VERBOSE : bool
}.

(** What is put in front of the message of a printed line. *)
Inductive Prefix : Type :=
| Plain               (* nothing *)
| InfoAnnotation      (* ::info:: *)
| ErrorAnnotation     (* ::error:: *)
| WarningAnnotation   (* ::warning:: *)
| ErrorLabel          (* the word for error, a colon and a space *)
| WarningLabel.       (* the word for warning, a colon and a space *)

(** Each function returns the lines it prints. *)
Definition log (flags : Flags) (msg : string) : list (Prefix * string) :=
  if GITHUB_ACTIONS flags then [(InfoAnnotation, msg)]
  else if VERBOSE flags || negb (GITHUB_ACTIONS flags) then [(Plain, msg)]
  else [].

Definition log_error (flags : Flags) (msg : string) : list (Prefix * string) :=
  if GITHUB_ACTIONS flags then [(ErrorAnnotation, msg)]
  else [(ErrorLabel, msg)].

Definition log_warning (flags : Flags) (msg : string) : list (Prefix * string) :=
  if GITHUB_ACTIONS flags then [(WarningAnnotation, msg)]
  else [(WarningLabel, msg)].

End Log.

(** *** Vocabulary of the further properties *)

(** A document with the text of every leaf of the rule blanked out: what is
    left is everything a walk must not touch. *)
Definition erase_enum_item (item : Value) : Value :=
  match item with VStr _ => VStr "" | _ => item end.

Fixpoint erase_settings (obj : Value) : Value :=
  match obj with
  | VObj fields =>
      VObj (map (fun kv =>
        let '(key, value) := kv in
        if py_in key REPLACE_TARGET_KEYS && is_str value then (key, VStr "")
        else if String.eqb key "enumDescriptions" && is_list value then
          (key, VArr (map erase_enum_item (items_of value)))
        else (key, erase_settings value)) fields)
  | VArr items => VArr (map erase_settings items)
  | _ => obj
  end.

Fixpoint erase_contributions (obj : Value) : Value :=
  match obj with
  | VObj fields =>
      VObj (map (fun kv =>
        let '(key, value) := kv in
        if py_in key ["label"; "name"; "contents"; "title"; "description"]
           && is_str value
        then (key, VStr "")
        else (key, erase_contributions value)) fields)
  | VArr items => VArr (map erase_contributions items)
  | _ => obj
  end.

Definition erase (schema : Schema) : Value -> Value :=
  match schema with
  | Settings => erase_settings
  | Contributions => erase_contributions
  end.

(** The strings under [title] or [description] that the contributions walk
    reaches. *)
Fixpoint title_strings (obj : Value) : nat :=
  match obj with
  | VObj fields =>
      py_sum (fun kv =>
        let '(key, value) := kv in
        if py_in key ["label"; "name"; "contents"] && is_str value then 0
        else if py_in key ["title"; "description"] && is_str value then 1
        else title_strings value) fields
  | VArr items => py_sum title_strings items
  | _ => 0
  end.

(** The dictionary in memory and the cache file hold the same mapping; a
    missing file stands for the empty mapping. *)
Definition in_sync (s : St) : Prop :=
  dict_file s = Some (dictionary (dict s)) \/
  (dict_file s = None /\ dictionary (dict s) = ∅).

(** Answers of the provider among the events of a trace. *)
Definition is_reply (e : Event) : bool :=
  match e with Post _ (Reply _) => true | _ => false end.

Definition is_cache_get (e : Event) : bool :=
  match e with CacheGet _ => true | _ => false end.

(** The text a warm cache puts in the place of a leaf. *)
Definition from_cache (cache : gmap string string) (text : string) : string :=
  if is_blank text then text
  else match cache !! text with Some translated => translated | None => text end.

(** * Properties *)

(** ** Sample evaluations *)

Example count_settings_sample :
  count_translatable_items
    (VObj [("title", VStr "Hello");
           ("enumDescriptions", VArr [VStr "Low"; VStr ""; VNum "3"; VStr "High"]);
           ("properties", VArr [VObj [("markdownDescription", VStr "x")]])]) = 5.
Proof. reflexivity. Qed.

Example count_contributions_sample :
  count_contributions_translatable_items
    (VObj [("title", VStr "Hello"); ("name", VStr "n");
           ("description", VObj [("label", VStr "l")])]) = 2.
Proof. reflexivity. Qed.

(** ** Strings *)

Lemma lstrip_chars_all_space (l : list ascii) :
  forallb py_isspace l = true -> lstrip_chars l = [].
Proof.
  induction l as [|c r IH]; simpl; [reflexivity|].
  intros H. apply andb_true_iff in H as [Hc Hr]. rewrite Hc. auto.
Qed.

Lemma strip_all_space (text : string) :
  forallb py_isspace (list_ascii_of_string text) = true -> strip text = "".
Proof.
  intros H. unfold strip. rewrite (lstrip_chars_all_space _ H). reflexivity.
Qed.

Lemma is_blank_all_space (text : string) :
  forallb py_isspace (list_ascii_of_string text) = true -> is_blank text = true.
Proof.
  intros H. unfold is_blank. rewrite (strip_all_space _ H). simpl.
  apply orb_true_r.
Qed.

Lemma py_in_spec (key : string) (keys : list string) :
  py_in key keys = true <-> In key keys.
Proof.
  unfold py_in. rewrite existsb_exists. split.
  - intros (k & Hin & Heq). apply String.eqb_eq in Heq. now subst.
  - intros Hin. exists key. split; [assumption|apply String.eqb_refl].
Qed.

(** ** The monad *)

Lemma Ret_inj {A} (a a' : A) (s s' : St) :
  Ret a s = Ret a' s' -> a = a' /\ s = s'.
Proof. intros H. injection H. auto. Qed.

Lemma mapM_app {A B} (f : A -> M B) (l1 l2 : list A) (s : St) :
  mapM f (l1 ++ l2) s =
  (y1 <- mapM f l1 ;; y2 <- mapM f l2 ;; ret (y1 ++ y2)) s.
Proof.
  revert s. induction l1 as [|x r IH]; intros s; simpl.
  - unfold bind, ret. simpl. destruct (mapM f l2 s); reflexivity.
  - unfold bind at 1 3 4. destruct (f x s) as [y s1|c s1|e s1]; try reflexivity.
    unfold bind at 1. rewrite IH. unfold bind, ret.
    destruct (mapM f r s1) as [ys s2|c s2|e s2]; try reflexivity.
    destruct (mapM f l2 s2); reflexivity.
Qed.

(** A property of states kept by every call is kept by the whole loop,
    however the loop ends. *)
Lemma mapM_final_state {A B} (f : A -> M B) (I : St -> Prop) :
  (forall x s, I s -> I (final_state (f x s))) ->
  forall l s, I s -> I (final_state (mapM f l s)).
Proof.
  intros Hstep l. induction l as [|x r IH]; intros s Hs; simpl; [assumption|].
  unfold bind. specialize (Hstep x s Hs).
  destruct (f x s) as [y s1|c s1|e s1]; simpl in *; try assumption.
  specialize (IH s1 Hstep). unfold ret.
  destruct (mapM f r s1); simpl in *; assumption.
Qed.

(** The same when the calls keep the property on the elements of the list
    only. *)
Lemma mapM_final_state_on {A B} (f : A -> M B) (P : A -> Prop) (I : St -> Prop) :
  (forall x s, P x -> I s -> I (final_state (f x s))) ->
  forall l s, Forall P l -> I s -> I (final_state (mapM f l s)).
Proof.
  intros Hstep l. induction l as [|x r IH]; intros s Hl Hs; simpl; [assumption|].
  apply Forall_cons in Hl as [Hx Hr].
  unfold bind. specialize (Hstep x s Hx Hs).
  destruct (f x s) as [y s1|c s1|e s1]; simpl in *; try assumption.
  specialize (IH s1 Hr Hstep). unfold ret.
  destruct (mapM f r s1); simpl in *; assumption.
Qed.

(** The walk over a list of sub-documents is the walk over their leaves. *)
Lemma mapM_flat_map {A B} (step : string -> M string) (f : A -> M B)
    (g : A -> list string) (h : B -> list string) (l : list A) :
  Forall (fun x => forall s, fmap_outcome h (f x s) = mapM step (g x) s) l ->
  forall s, fmap_outcome (flat_map h) (mapM f l s) = mapM step (flat_map g l) s.
Proof.
  induction 1 as [|x r Hx _ IH]; intros s; simpl; [reflexivity|].
  rewrite mapM_app. unfold bind. rewrite <- Hx.
  destruct (f x s) as [y s1|c s1|e s1]; simpl; try reflexivity.
  rewrite <- IH. unfold ret.
  destruct (mapM f r s1); reflexivity.
Qed.

(** ** The walks, leaf by leaf *)

Section LeafWise.
Variable env : Env.
Variable api_key : string.

Lemma enum_items_leafwise (items : list Value) (s : St) :
  fmap_outcome (flat_map enum_leaf) (mapM (translate_enum_item env api_key) items s)
  = mapM (leaf env api_key) (flat_map enum_leaf items) s.
Proof.
  apply mapM_flat_map. apply Forall_forall. intros item _ s0.
  destruct item as [|b|n|t|l|f]; simpl; try reflexivity.
  unfold bind, ret. destruct (leaf env api_key t s0); reflexivity.
Qed.

(** A walk gives back a value of the kind it was given. *)
Lemma traverse_keeps_kind (obj obj' : Value) (s s' : St) :
  traverse_and_translate env api_key obj s = Ret obj' s' ->
  is_str obj' = is_str obj /\ is_list obj' = is_list obj.
Proof.
  destruct obj; simpl; unfold ret, bind; intros H;
    try (inversion H; subst; auto; fail).
  - destruct (mapM _ items s); inversion H; subst; auto.
  - destruct (mapM _ fields s); inversion H; subst; auto.
Qed.

Lemma translate_in_object_keeps_kind (obj obj' : Value) (s s' : St) :
  translate_in_object env api_key obj s = Ret obj' s' ->
  is_str obj' = is_str obj.
Proof.
  destruct obj; simpl; unfold ret, bind; intros H;
    try (inversion H; subst; auto; fail).
  - destruct (mapM _ items s); inversion H; subst; auto.
  - destruct (mapM _ fields s); inversion H; subst; auto.
Qed.

(** [traverse_and_translate] is the sequence of [translate_text] calls on
    the leaves of the settings rule, and its result has the answers at the
    places of the leaves. *)
Lemma traverse_leafwise (obj : Value) :
  forall s,
    fmap_outcome settings_leaves (traverse_and_translate env api_key obj s)
    = mapM (leaf env api_key) (settings_leaves obj) s.
Proof.
  induction obj as [|b|n|t|items IH|fields IH] using Value_ind;
    intros s; try reflexivity.
  - simpl. unfold bind at 1, ret.
    rewrite <- (mapM_flat_map (leaf env api_key)
                  (traverse_and_translate env api_key)
                  settings_leaves settings_leaves items IH s).
    destruct (mapM _ items s); reflexivity.
  - simpl. unfold bind at 1, ret.
    match goal with
    | |- context [mapM ?f fields s] =>
        match goal with
        | |- _ = mapM _ (flat_map ?g fields) s =>
            rewrite <- (mapM_flat_map (leaf env api_key) f g g fields)
        end
    end.
    + destruct (mapM _ fields s); reflexivity.
    + clear s. eapply Forall_impl; [exact IH|].
      intros [key value] Hv s. simpl in Hv.
      destruct (py_in key REPLACE_TARGET_KEYS && is_str value) eqn:E1.
      * simpl. unfold bind, ret.
        destruct (leaf env api_key (text_of value) s); simpl;
          try reflexivity.
        apply andb_true_iff in E1 as [-> _]. reflexivity.
      * destruct (String.eqb key "enumDescriptions" && is_list value) eqn:E2.
        -- unfold bind at 1.
           rewrite <- enum_items_leafwise.
           destruct (mapM _ (items_of value) s); simpl; try reflexivity.
           apply andb_true_iff in E2 as [E2 _]. rewrite E2.
           apply String.eqb_eq in E2. subst key. reflexivity.
        -- unfold bind at 1. rewrite <- Hv.
           destruct (traverse_and_translate env api_key value s)
             as [value' s'| |] eqn:Ht; simpl; try reflexivity.
           destruct (traverse_keeps_kind _ _ _ _ Ht) as [-> ->].
           rewrite E1, E2. reflexivity.
Qed.

Lemma contributions_leaf_keys (key : string) :
  py_in key ["label"; "name"; "contents"; "title"; "description"]
  = String.eqb key "label" || String.eqb key "name"
    || String.eqb key "contents" || py_in key ["title"; "description"].
Proof.
  unfold py_in. simpl.
  destruct (String.eqb key "label"), (String.eqb key "name"),
    (String.eqb key "contents"), (String.eqb key "title"),
    (String.eqb key "description"); reflexivity.
Qed.

(** The same for [translate_in_object] and the contributions rule. *)
Lemma translate_in_object_leafwise (obj : Value) :
  forall s,
    fmap_outcome contributions_leaves (translate_in_object env api_key obj s)
    = mapM (leaf env api_key) (contributions_leaves obj) s.
Proof.
  induction obj as [|b|n|t|items IH|fields IH] using Value_ind;
    intros s; try reflexivity.
  - simpl. unfold bind at 1, ret.
    rewrite <- (mapM_flat_map (leaf env api_key)
                  (translate_in_object env api_key)
                  contributions_leaves contributions_leaves items IH s).
    destruct (mapM _ items s); reflexivity.
  - simpl. unfold bind at 1, ret.
    match goal with
    | |- context [mapM ?f fields s] =>
        match goal with
        | |- _ = mapM _ (flat_map ?g fields) s =>
            rewrite <- (mapM_flat_map (leaf env api_key) f g g fields)
        end
    end.
    + destruct (mapM _ fields s); reflexivity.
    + clear s. eapply Forall_impl; [exact IH|].
      intros [key value] Hv s. simpl in Hv.
      destruct (is_str value) eqn:Es;
        rewrite ?andb_false_r, ?andb_true_r.
      * destruct (py_in key ["label"; "name"; "contents"; "title"; "description"])
          eqn:K; rewrite contributions_leaf_keys in K.
        -- destruct (String.eqb key "label") eqn:K1;
             [|destruct (String.eqb key "name") eqn:K2;
               [|destruct (String.eqb key "contents") eqn:K3;
                 [|destruct (py_in key ["title"; "description"]) eqn:K4;
                   [|discriminate K]]]];
             simpl; unfold bind;
             (destruct (leaf env api_key (text_of value) s); simpl;
              try reflexivity);
             rewrite contributions_leaf_keys, ?K1, ?K2, ?K3, ?K4; reflexivity.
        -- apply orb_false_iff in K as [K K4].
           apply orb_false_iff in K as [K K3].
           apply orb_false_iff in K as [K1 K2].
           rewrite K1, K2, K3, K4. unfold bind. rewrite <- Hv.
           destruct (translate_in_object env api_key value s)
             as [value' s'| |] eqn:Ht; simpl; try reflexivity.
           rewrite contributions_leaf_keys, K1, K2, K3, K4. reflexivity.
      * destruct (String.eqb key "label"), (String.eqb key "name"),
          (String.eqb key "contents"), (py_in key ["title"; "description"]);
        simpl; unfold bind; rewrite <- Hv;
        (destruct (translate_in_object env api_key value s)
           as [value' s'| |] eqn:Ht; simpl; try reflexivity);
        rewrite (translate_in_object_keeps_kind _ _ _ _ Ht), Es, andb_false_r;
        reflexivity.
Qed.

End LeafWise.

(** ** One call of the client *)

Ltac unfold_client :=
  unfold leaf, at_leaf, signal_handler, translate_text, post, log_error,
    Dictionary.exists_, Dictionary.get, Dictionary.set, Dictionary.save,
    Progress.update, emit, sys_exit, bind, ret,
    Dictionary.with_dictionary, Dictionary.with_file, Progress.with_bar,
    tick in *.

(** The paths through [translate_text text api_key s]: pass-through, cache
    hit, and one case for each answer of the provider. *)
Ltac client_cases env api_key text s :=
  unfold_client; simpl;
  destruct (is_blank text) eqn:Hblank; simpl;
  [|destruct (dictionary (dict s) !! text) as [cached|] eqn:Hlookup; simpl;
    rewrite ?Hlookup; simpl;
    [|destruct (provider env (clock s) api_key text) as [content| | | | |]
        eqn:Hresp; simpl]].

(** The same at a call site of a walk, after the case of a pending signal. *)
Ltac leaf_cases env api_key text s :=
  unfold_client; simpl;
  destruct (signal env (clock s)) eqn:Hsig; simpl;
  [|destruct (is_blank text) eqn:Hblank; simpl;
    [|destruct (dictionary (dict s) !! text) as [cached|] eqn:Hlookup; simpl;
      rewrite ?Hlookup; simpl;
      [|destruct (provider env (S (clock s)) api_key text) as [content| | | | |]
          eqn:Hresp; simpl]]].

Section Steps.
Variable env : Env.
Variable api_key : string.

(** An entry of the dictionary is never lost or changed. *)
Lemma leaf_keeps_entry (text t r : string) (s : St) :
  dictionary (dict s) !! t = Some r ->
  dictionary (dict (final_state (leaf env api_key text s))) !! t = Some r.
Proof.
  intros H. leaf_cases env api_key text s; try assumption.
  rewrite lookup_insert_ne; [assumption|]. congruence.
Qed.

Lemma leaf_keeps_durable (text t r : string) (s : St) :
  durable t r s -> durable t r (final_state (leaf env api_key text s)).
Proof.
  intros [Hm (stored & Hf & Hs)]. unfold durable.
  leaf_cases env api_key text s; eauto.
  all: split; [|eexists; split; [reflexivity|]];
    try assumption; rewrite lookup_insert_ne; congruence.
Qed.

Lemma leaf_keeps_recorded (text : string) (s : St) :
  recorded s -> recorded (final_state (leaf env api_key text s)).
Proof.
  unfold recorded. intros H.
  leaf_cases env api_key text s; try assumption; intros t c Hin;
    repeat (destruct Hin as [Hin|Hin]; [try discriminate Hin|]);
    try (apply H; assumption).
  - inversion Hin; subst. apply lookup_insert_eq.
  - rewrite lookup_insert_ne; [apply H; assumption|].
    intros ->. rewrite (H _ _ Hin) in Hlookup. discriminate.
Qed.

Lemma leaf_keeps_counters (text : string) (s : St) :
  current (bar s) = api_calls (bar s) + cache_hits (bar s) ->
  let s' := final_state (leaf env api_key text s) in
  current (bar s') = api_calls (bar s') + cache_hits (bar s').
Proof.
  intros H. leaf_cases env api_key text s; lia.
Qed.

(** A call that leaves the program does so with status 0 and with the
    whole dictionary in the cache file. *)
Lemma leaf_exit (text : string) (s s' : St) (c : Z) :
  leaf env api_key text s = Exit c s' ->
  c = 0%Z /\ dict_file s' = Some (dictionary (dict s')).
Proof.
  leaf_cases env api_key text s; intros H; inversion H; subst; auto.
Qed.

Lemma leaf_never_raises (text : string) (s s' : St) (e : Exn) :
  leaf env api_key text s <> Raise e s'.
Proof.
  leaf_cases env api_key text s; discriminate.
Qed.

(** A call that returns has produced one [update], unless the text is
    blank. *)
Lemma leaf_updates (text o : string) (s s' : St) :
  leaf env api_key text s = Ret o s' ->
  count_events is_update s'
  = count_events is_update s + (if is_blank text then 0 else 1).
Proof.
  unfold count_events.
  leaf_cases env api_key text s; intros H; inversion H; subst; simpl; lia.
Qed.

(** With no interrupt the call returns; the leaf is resolved, or one more
    failure is logged. *)
Lemma leaf_without_interrupt (text : string) (s : St) :
  no_interrupt env ->
  exists o s',
    leaf env api_key text s = Ret o s' /\
    ((resolved (dictionary (dict s')) (text, o) = true /\
      count_events is_log_error s' = count_events is_log_error s)
     \/ count_events is_log_error s' = S (count_events is_log_error s)).
Proof.
  intros [Hquiet Hanswer]. unfold count_events, resolved.
  leaf_cases env api_key text s;
    try (rewrite Hquiet in Hsig; discriminate);
    try (exfalso; eapply Hanswer; eassumption);
    do 2 eexists; (split; [reflexivity|]); simpl; rewrite ?Hblank;
    try (right; reflexivity); left; (split; [|reflexivity]);
    apply bool_decide_eq_true_2; try reflexivity; try assumption.
  apply lookup_insert_eq.
Qed.

(** In the cache-hit branch [get] finds the entry [exists] has seen. *)
Lemma exists_then_get (text : string) (s s1 : St) :
  Dictionary.exists_ text s = Ret true s1 ->
  exists translated s2,
    Dictionary.get text s1 = Ret (Some translated) s2.
Proof.
  unfold_client. simpl. intros H. apply Ret_inj in H as [H <-]. simpl.
  apply bool_decide_eq_true_1 in H. destruct H as [translated ->].
  eauto.
Qed.

(** On a blank text, or a text the dictionary has, a call sends no request
    and leaves the dictionary as it is. *)
Lemma leaf_warm (text : string) (m : gmap string string) (n : nat) (s : St) :
  is_blank text = true \/ is_Some (m !! text) ->
  dictionary (dict s) = m /\ count_events is_post s = n ->
  let s' := final_state (leaf env api_key text s) in
  dictionary (dict s') = m /\ count_events is_post s' = n.
Proof.
  intros Hwarm [Hm Hn]. unfold count_events in *.
  leaf_cases env api_key text s; try (split; assumption);
    exfalso; destruct Hwarm as [Hb|[r Hr]]; try discriminate;
    rewrite <- Hm in Hr; congruence.
Qed.

End Steps.

(** ** A sequence of calls *)

Section Sequences.
Variable env : Env.
Variable api_key : string.

Lemma leaves_exit (texts : list string) :
  forall s s' c,
    mapM (leaf env api_key) texts s = Exit c s' ->
    c = 0%Z /\ dict_file s' = Some (dictionary (dict s')).
Proof.
  induction texts as [|t r IH]; intros s s' c; simpl; [discriminate|].
  unfold bind, ret.
  destruct (leaf env api_key t s) as [o s1|c1 s1|e s1] eqn:Hleaf;
    try discriminate.
  - destruct (mapM (leaf env api_key) r s1) as [os s2|c2 s2|e s2] eqn:Hrest;
      try discriminate.
    intros H; inversion H; subst. eapply IH; eassumption.
  - intros H; inversion H; subst. eapply leaf_exit; eassumption.
Qed.

Lemma leaves_never_raise (texts : list string) :
  forall s s' e, mapM (leaf env api_key) texts s <> Raise e s'.
Proof.
  induction texts as [|t r IH]; intros s s' e; simpl; [discriminate|].
  unfold bind, ret.
  destruct (leaf env api_key t s) as [o s1|c1 s1|e1 s1] eqn:Hleaf;
    try discriminate.
  - destruct (mapM (leaf env api_key) r s1) as [os s2|c2 s2|e2 s2] eqn:Hrest;
      try discriminate.
    intros H; inversion H; subst. eapply IH; eassumption.
  - intros H; inversion H; subst. eapply leaf_never_raises; eassumption.
Qed.

Lemma leaves_updates (texts : list string) :
  forall s s' outs,
    mapM (leaf env api_key) texts s = Ret outs s' ->
    count_events is_update s' + blanks texts
    = count_events is_update s + length texts.
Proof.
  induction texts as [|t r IH]; intros s s' outs; simpl.
  - unfold ret. intros H; inversion H; subst. reflexivity.
  - unfold bind, ret.
    destruct (leaf env api_key t s) as [o s1|c1 s1|e1 s1] eqn:Hleaf;
      try discriminate.
    destruct (mapM (leaf env api_key) r s1) as [os s2|c2 s2|e2 s2] eqn:Hrest;
      try discriminate.
    intros H; inversion H; subst.
    specialize (IH _ _ _ Hrest). apply leaf_updates in Hleaf.
    unfold blanks in *. simpl. destruct (is_blank t); lia.
Qed.

Lemma resolved_mono (m m' : gmap string string) (p : string * string) :
  (forall t r, m !! t = Some r -> m' !! t = Some r) ->
  resolved m p = true -> resolved m' p = true.
Proof.
  destruct p as [t o]. unfold resolved. intros Hsub.
  destruct (is_blank t); [trivial|].
  intros H. apply bool_decide_eq_true_1 in H.
  apply bool_decide_eq_true_2. auto.
Qed.

Lemma leaves_keep_entry (texts : list string) (t r : string) (s : St) :
  dictionary (dict s) !! t = Some r ->
  dictionary (dict (final_state (mapM (leaf env api_key) texts s))) !! t
  = Some r.
Proof.
  apply (mapM_final_state (leaf env api_key)
           (fun s0 => dictionary (dict s0) !! t = Some r)).
  intros x s0. apply leaf_keeps_entry.
Qed.

(** With no interrupt the sequence runs to its end, and every leaf that is
    not resolved has its own logged failure. *)
Lemma leaves_without_interrupt (texts : list string) :
  no_interrupt env ->
  forall s, exists outs s',
    mapM (leaf env api_key) texts s = Ret outs s' /\
    length outs = length texts /\
    length texts + count_events is_log_error s
    <= resolved_count (dictionary (dict s')) texts outs
       + count_events is_log_error s'.
Proof.
  intros Hquiet. induction texts as [|t r IH]; intros s; simpl.
  - exists [], s. unfold ret, resolved_count. simpl. auto with lia.
  - destruct (leaf_without_interrupt env api_key t s Hquiet)
      as (o & s1 & Hleaf & Hres).
    destruct (IH s1) as (outs & s' & Hrest & Hlen & Hcount).
    exists (o :: outs), s'. unfold bind, ret. rewrite Hleaf, Hrest.
    split; [reflexivity|]. split; [simpl; congruence|].
    unfold resolved_count in *. cbn [zip zip_with count_if].
    destruct Hres as [[Hres Hsame]|Hfail]; [|lia].
    assert (resolved (dictionary (dict s')) (t, o) = true) as ->.
    { eapply resolved_mono; [|exact Hres]. intros t0 r0 H0.
      pose proof (leaves_keep_entry r t0 r0 s1 H0) as Hk.
      rewrite Hrest in Hk. exact Hk. }
    lia.
Qed.

End Sequences.

(** ** Count pass and leaves *)

Lemma py_sum_flat_map {A} (f : A -> nat) (g : A -> list string) (l : list A) :
  Forall (fun x => f x = length (g x)) l ->
  py_sum f l = length (flat_map g l).
Proof.
  induction 1 as [|x r Hx _ IH]; simpl; [reflexivity|].
  rewrite length_app. congruence.
Qed.

Lemma count_enum_items (items : list Value) :
  py_sum (fun item => if is_str item then 1 else 0) items
  = length (flat_map enum_leaf items).
Proof.
  apply py_sum_flat_map. apply Forall_forall. intros item _.
  destruct item; reflexivity.
Qed.

(** The count pass of the settings rule counts the leaves of its walk. *)
Lemma count_translatable_items_leaves (obj : Value) :
  count_translatable_items obj = length (settings_leaves obj).
Proof.
  induction obj as [|b|n|t|items IH|fields IH] using Value_ind;
    try reflexivity; simpl.
  - apply py_sum_flat_map. exact IH.
  - apply py_sum_flat_map. eapply Forall_impl; [exact IH|].
    intros [key value] Hv. simpl in Hv.
    destruct (py_in key REPLACE_TARGET_KEYS && is_str value); [reflexivity|].
    destruct (String.eqb key "enumDescriptions" && is_list value);
      [apply count_enum_items|exact Hv].
Qed.

(** The count pass of the contributions rule counts the leaves of its walk
    when no [title] or [description] holds a string. *)
Lemma count_contributions_leaves (obj : Value) :
  no_text_title obj = true ->
  count_contributions_translatable_items obj
  = length (contributions_leaves obj).
Proof.
  induction obj as [|b|n|t|items IH|fields IH] using Value_ind;
    try reflexivity; simpl; intros Hno.
  - apply py_sum_flat_map. rewrite forallb_forall in Hno.
    rewrite Forall_forall in IH |- *. intros x Hx. apply IH; auto.
    apply Hno. apply list_elem_of_In. exact Hx.
  - apply py_sum_flat_map. rewrite forallb_forall in Hno.
    rewrite Forall_forall in IH |- *. intros [key value] Hx.
    specialize (IH _ Hx). simpl in IH.
    specialize (Hno (key, value)). simpl in Hno.
    apply list_elem_of_In in Hx. specialize (Hno Hx).
    apply andb_true_iff in Hno as [Hkey Hsub]. specialize (IH Hsub).
    rewrite contributions_leaf_keys.
    apply negb_true_iff in Hkey.
    destruct (is_str value) eqn:Es; rewrite ?andb_true_r, ?andb_false_r in *.
    + rewrite Hkey, orb_false_r.
      destruct (String.eqb key "label"), (String.eqb key "name"),
        (String.eqb key "contents"); simpl; try reflexivity; exact IH.
    + simpl. destruct (py_in key ["title"; "description"]); exact IH.
Qed.

(** ** A whole pass *)

Section Passes.
Variable env : Env.
Variable api_key : string.

Lemma final_state_fmap {A B} (f : A -> B) (o : Outcome A) :
  final_state (fmap_outcome f o) = final_state o.
Proof. destruct o; reflexivity. Qed.

Lemma pass_leafwise (schema : Schema) (doc : Value) (s : St) :
  fmap_outcome (leaves_of schema) (translate_pass env api_key schema doc s)
  = mapM (leaf env api_key) (leaves_of schema doc) s.
Proof.
  destruct schema; [apply traverse_leafwise|apply translate_in_object_leafwise].
Qed.

Lemma pass_returns (schema : Schema) (doc doc' : Value) (s s' : St) :
  translate_pass env api_key schema doc s = Ret doc' s' ->
  mapM (leaf env api_key) (leaves_of schema doc) s
  = Ret (leaves_of schema doc') s'.
Proof. intros H. rewrite <- pass_leafwise, H. reflexivity. Qed.

Lemma pass_exits (schema : Schema) (doc : Value) (s s' : St) (c : Z) :
  translate_pass env api_key schema doc s = Exit c s' ->
  mapM (leaf env api_key) (leaves_of schema doc) s = Exit c s'.
Proof. intros H. rewrite <- pass_leafwise, H. reflexivity. Qed.

Lemma pass_never_raises (schema : Schema) (doc : Value) (s s' : St) (e : Exn) :
  translate_pass env api_key schema doc s <> Raise e s'.
Proof.
  intros H. apply (leaves_never_raise env api_key (leaves_of schema doc) s s' e).
  rewrite <- pass_leafwise, H. reflexivity.
Qed.

Lemma pass_final_state (schema : Schema) (doc : Value) (s : St) (I : St -> Prop) :
  (forall t s0, I s0 -> I (final_state (leaf env api_key t s0))) ->
  I s -> I (final_state (translate_pass env api_key schema doc s)).
Proof.
  intros Hstep Hs. rewrite <- (final_state_fmap (leaves_of schema)), pass_leafwise.
  apply mapM_final_state; assumption.
Qed.

Lemma run_pass_eq (schema : Schema) (data : Value) (s : St) :
  run_pass env api_key schema data s
  = translate_pass env api_key schema data
      (fresh_bar (count_pass schema data) s).
Proof. reflexivity. Qed.

End Passes.

(** ** The orchestrator, branch by branch *)

Section OrchestratorShape.
Context {Bytes : Type}.
Variable json_load : Bytes -> option Value.
Variable json_dump : nat -> Value -> Bytes.
Variable env : Env.
Variable api_key : string.

Lemma translate_contributions_file_eq (file_path : string)
    (fs : gmap string Bytes) (s : St) (bytes : Bytes) (data : Value) :
  fs !! file_path = Some bytes ->
  json_load bytes = Some data ->
  translate_contributions_file json_load json_dump env file_path api_key fs s
  = if Nat.eqb (count_contributions_translatable_items data) 0
    then (fs, Ret true s)
    else match run_pass env api_key Contributions data s with
         | Ret data' s' => (<[file_path := json_dump 4 data']> fs, Ret true s')
         | Exit c s' => (fs, Exit c s')
         | Raise e s' => (fs, Raise e s')
         end.
Proof.
  intros Hfile Hload. unfold translate_contributions_file.
  rewrite Hfile, Hload. reflexivity.
Qed.

(** After the pass over package.json, [main] raises when
    [remaining <= 0] and goes on to the write-back otherwise. *)
Lemma main_after_init_eq (fs : gmap string Bytes) (s : St)
    (bytes : Bytes) (data : Value) :
  truthy api_key = true ->
  fs !! PACKAGE_JSON_PATH = Some bytes ->
  json_load bytes = Some data ->
  main_after_init json_load json_dump env api_key fs s
  = match run_pass env api_key Settings data s with
    | Ret data' s1 =>
        if Nat.leb (count_translatable_items data) (size (dictionary (dict s)))
        then (fs, Raise UnboundLocalError s1)
        else
          let fs1 := <[PACKAGE_JSON_PATH := json_dump 2 data']> fs in
          match translate_contributions_file json_load json_dump env
                  CONTRIBUTIONS_JSON_PATH api_key fs1 s1 with
          | (fs2, Ret _ s2) => (fs2, Dictionary.save s2)
          | (fs2, Exit c s2) => (fs2, Exit c s2)
          | (fs2, Raise e s2) => (fs2, Raise e s2)
          end
    | Exit c s1 => (fs, Exit c s1)
    | Raise e s1 => (fs, Raise e s1)
    end.
Proof.
  intros Hkey Hfile Hload. unfold main_after_init.
  rewrite Hkey, Hfile, Hload. simpl negb. cbv iota.
  rewrite run_pass_eq. simpl count_pass. simpl translate_pass.
  destruct (Nat.leb (count_translatable_items data) (size (dictionary (dict s))))
    eqn:Hle.
  - apply Nat.leb_le in Hle.
    assert ((Z.of_nat (count_translatable_items data)
             - Z.of_nat (size (dictionary (dict s))) <=? 0)%Z = true) as ->
      by (apply Z.leb_le; lia).
    unfold bind, ret, Progress.new, fresh_bar.
    destruct (traverse_and_translate env api_key data _); reflexivity.
  - apply Nat.leb_gt in Hle.
    assert ((Z.of_nat (count_translatable_items data)
             - Z.of_nat (size (dictionary (dict s))) <=? 0)%Z = false) as ->
      by (apply Z.leb_gt; lia).
    unfold bind, ret, Progress.new, fresh_bar.
    destruct (traverse_and_translate env api_key data _); reflexivity.
Qed.

(** [main] itself stops in the constructor of the dictionary: the path it
    passes is a [str]. *)
Lemma main_raises_in_load (fs : gmap string Bytes)
    (stored : option (gmap string string)) :
  main json_load json_dump env api_key fs stored
  = (fs, Raise AttributeError (boot stored)).
Proof. reflexivity. Qed.

End OrchestratorShape.

(** * The properties of the specification *)

(** ** C1: count pass against translate pass *)

(** C1, as stated, fails.  On the settings document [{"title": ""}] the count
    pass returns 1, and the translate pass returns without a single [update]:
    the blank text is passed through by the guard of [translate_text]. *)
Lemma count_traversal_counterexample :
  exists doc' s',
    run_pass echo_env "key" Settings (VObj [("title", VStr "")]) (loaded None)
    = Ret doc' s' /\
    count_events is_update s' = 0 /\
    count_pass Settings (VObj [("title", VStr "")]) = 1.
Proof.
  do 2 eexists. split; [vm_compute; reflexivity|].
  split; reflexivity.
Qed.

(** The count pass of the contributions rule does not count a string under
    [title] (or [description]) that [translate_in_object] translates. *)
Example contributions_count_skips_title :
  count_pass Contributions (VObj [("title", VStr "Hello")]) = 0 /\
  leaves_of Contributions (VObj [("title", VStr "Hello")]) = ["Hello"].
Proof. split; reflexivity. Qed.

(** C1, amended.  For either rule, on a document whose leaves the count pass
    of the rule all sees (every settings document; a contributions document
    with no string under [title] or [description]): the translate pass calls
    [translate_text] once for each counted item, in the order of the walk,
    and when it runs to its end the number of [update] events it has
    produced is the count less the number of blank leaves. *)
Theorem count_traversal_agreement (env : Env) (api_key : string)
    (schema : Schema) (doc doc' : Value) (s s' : St) :
  count_covers schema doc = true ->
  translate_pass env api_key schema doc s = Ret doc' s' ->
  length (leaves_of schema doc) = count_pass schema doc /\
  mapM (leaf env api_key) (leaves_of schema doc) s
  = Ret (leaves_of schema doc') s' /\
  count_events is_update s' + blanks (leaves_of schema doc)
  = count_events is_update s + count_pass schema doc.
Proof.
  intros Hcov Hpass.
  assert (Hlen : length (leaves_of schema doc) = count_pass schema doc).
  { destruct schema; simpl in *; symmetry.
    - apply count_translatable_items_leaves.
    - apply count_contributions_leaves. exact Hcov. }
  pose proof (pass_returns env api_key schema doc doc' s s' Hpass) as Hseq.
  split; [exact Hlen|]. split; [exact Hseq|].
  rewrite <- Hlen. eapply leaves_updates. exact Hseq.
Qed.

Lemma count_traversal_agreement_witness :
  let doc := VObj [("label", VStr "Hi"); ("name", VStr " ");
                   ("commands", VArr [VObj [("contents", VStr "c")]])] in
  exists doc' s',
    translate_pass echo_env "key" Contributions doc (loaded None) = Ret doc' s' /\
    length (leaves_of Contributions doc) = count_pass Contributions doc /\
    mapM (leaf echo_env "key") (leaves_of Contributions doc) (loaded None)
    = Ret (leaves_of Contributions doc') s' /\
    count_events is_update s' + blanks (leaves_of Contributions doc)
    = count_events is_update (loaded None) + count_pass Contributions doc.
Proof.
  intros doc. do 2 eexists.
  assert (H : forall o, o = translate_pass echo_env "key" Contributions doc (loaded None) ->
              translate_pass echo_env "key" Contributions doc (loaded None) = o)
    by (intros; subst; reflexivity).
  split; [apply H; vm_compute; reflexivity|].
  apply count_traversal_agreement; [reflexivity|].
  vm_compute; reflexivity.
Defined.

(** ** C2 and C3: the branch on [remaining] *)

(** When the dictionary has at least as many keys as the document has
    countable items ([remaining <= 0]), [main] runs the pass, then reads the
    variable [progress] that this branch never assigned: it raises
    [UnboundLocalError] and writes no file. *)
Lemma no_write_back_when_remaining_le_0 {Bytes : Type}
    (json_load : Bytes -> option Value) (json_dump : nat -> Value -> Bytes)
    (env : Env) (api_key : string) (fs : gmap string Bytes) (s : St)
    (bytes : Bytes) (data : Value) :
  truthy api_key = true ->
  fs !! PACKAGE_JSON_PATH = Some bytes ->
  json_load bytes = Some data ->
  count_translatable_items data <= size (dictionary (dict s)) ->
  main_after_init json_load json_dump env api_key fs s
  = (fs, match run_pass env api_key Settings data s with
         | Ret _ s1 => Raise UnboundLocalError s1
         | Exit c s1 => Exit c s1
         | Raise e s1 => Raise e s1
         end).
Proof.
  intros Hkey Hfile Hload Hle.
  rewrite (main_after_init_eq _ _ _ _ _ _ _ _ Hkey Hfile Hload).
  apply Nat.leb_le in Hle. rewrite Hle.
  destruct (run_pass env api_key Settings data s); reflexivity.
Qed.

(** When [remaining > 0] and the pass returns, package.json is written with
    the result of the pass. *)
Lemma write_back_when_remaining_gt_0 {Bytes : Type}
    (json_load : Bytes -> option Value) (json_dump : nat -> Value -> Bytes)
    (env : Env) (api_key : string) (fs : gmap string Bytes) (s s1 : St)
    (bytes : Bytes) (data data' : Value) :
  truthy api_key = true ->
  fs !! PACKAGE_JSON_PATH = Some bytes ->
  json_load bytes = Some data ->
  size (dictionary (dict s)) < count_translatable_items data ->
  run_pass env api_key Settings data s = Ret data' s1 ->
  fst (main_after_init json_load json_dump env api_key fs s)
    !! PACKAGE_JSON_PATH = Some (json_dump 2 data').
Proof.
  intros Hkey Hfile Hload Hlt Hpass.
  rewrite (main_after_init_eq _ _ _ _ _ _ _ _ Hkey Hfile Hload), Hpass.
  apply Nat.leb_gt in Hlt. rewrite Hlt. cbv zeta.
  unfold translate_contributions_file.
  rewrite lookup_insert_ne by discriminate.
  destruct (fs !! CONTRIBUTIONS_JSON_PATH) as [cbytes|];
    [|simpl; apply lookup_insert_eq].
  destruct (json_load cbytes) as [cdata|]; [|simpl; apply lookup_insert_eq].
  destruct (Nat.eqb _ 0); [simpl; apply lookup_insert_eq|].
  destruct ((Progress.new _ ;; translate_in_object env api_key cdata) s1);
    simpl; rewrite ?lookup_insert_ne by discriminate; apply lookup_insert_eq.
Qed.

(** With an entry in the cache for every leaf that is not blank, a pass
    sends no request to the provider, however it ends. *)
Lemma warm_pass_sends_no_request (env : Env) (api_key : string)
    (schema : Schema) (doc : Value) (s : St) :
  Forall (fun t => is_blank t = true \/ is_Some (dictionary (dict s) !! t))
    (leaves_of schema doc) ->
  count_events is_post (final_state (run_pass env api_key schema doc s))
  = count_events is_post s.
Proof.
  intros Hwarm. rewrite run_pass_eq.
  rewrite <- (final_state_fmap (leaves_of schema)), pass_leafwise.
  apply (mapM_final_state_on (leaf env api_key)
           (fun t => is_blank t = true \/ is_Some (dictionary (dict s) !! t))
           (fun s0 => dictionary (dict s0) = dictionary (dict s) /\
                      count_events is_post s0 = count_events is_post s)).
  - intros t s0 Ht Hs0. apply leaf_warm; assumption.
  - exact Hwarm.
  - split; reflexivity.
Qed.


(** C3, evaluated.  A first run on [{"title": "Hello"}] with an empty cache
    succeeds and leaves the cache [{"Hello": "<Hello>"}].  The second run on
    the same document with that cache sends no request, and ends in
    [UnboundLocalError] before the write-back: [remaining] is 0.  The entry
    point [main] itself ends in [AttributeError] on every input, because it
    constructs the dictionary on a [str]. *)
Theorem warm_rerun_raises :
  let doc := VObj [("title", VStr "Hello")] in
  let fs : gmap string TreeFiles.Bytes := {[ PACKAGE_JSON_PATH := (4, doc) ]} in
  let run stored :=
    main_after_init TreeFiles.json_load TreeFiles.json_dump echo_env "key" fs
      (loaded stored) in
  let warm : gmap string string := {[ "Hello" := "<Hello>" ]} in
  let s1 := final_state (snd (run None)) in
  let s2 := final_state (snd (run (Some warm))) in
  (run None = (<[ PACKAGE_JSON_PATH := (2, VObj [("title", VStr "<Hello>")]) ]> fs,
               Ret tt s1) /\
   dict_file s1 = Some warm) /\
  (run (Some warm) = (fs, Raise UnboundLocalError s2) /\
   count_events is_post s2 = 0 /\ cache_hits (bar s2) = 1) /\
  (forall stored,
     main TreeFiles.json_load TreeFiles.json_dump echo_env "key" fs stored
     = (fs, Raise AttributeError (boot stored))).
Proof.
  intros doc fs run warm s1 s2.
  split; [|split].
  - split; vm_compute; reflexivity.
  - repeat split; vm_compute; reflexivity.
  - intros stored. reflexivity.
Qed.

(** ** C4: the settings rule *)

(** C4, as stated, fails: [markdownDescription] is not in the set the claim
    lists, and a string under it is counted and translated. *)
Lemma settings_rule_counterexample :
  ~ In "markdownDescription"
      ["title"; "label"; "contents"; "displayName"; "description"] /\
  count_translatable_items (VObj [("markdownDescription", VStr "x")]) = 1 /\
  settings_leaves (VObj [("markdownDescription", VStr "x")]) = ["x"].
Proof.
  split; [|split; reflexivity].
  simpl. intros H. repeat (destruct H as [H|H]; [discriminate H|]). exact H.
Qed.

Lemma mapM_ext {A B} (f g : A -> M B) (l : list A) :
  (forall x s, f x s = g x s) -> forall s, mapM f l s = mapM g l s.
Proof.
  intros Hfg. induction l as [|x r IH]; intros s; simpl; [reflexivity|].
  unfold bind. rewrite Hfg. destruct (g x s) as [y s1| |]; try reflexivity.
  rewrite IH. reflexivity.
Qed.

Lemma py_sum_ext {A} (f g : A -> nat) (l : list A) :
  (forall x, f x = g x) -> py_sum f l = py_sum g l.
Proof.
  intros Hfg. induction l as [|x r IH]; simpl; [reflexivity|].
  rewrite Hfg, IH. reflexivity.
Qed.

Lemma settings_keys_test (key : string) :
  py_in key REPLACE_TARGET_KEYS = bool_decide (key ∈ SETTINGS_KEYS).
Proof.
  destruct (py_in key REPLACE_TARGET_KEYS) eqn:Hin; symmetry.
  - apply bool_decide_eq_true_2, list_elem_of_In, py_in_spec. exact Hin.
  - apply bool_decide_eq_false_2. intros H.
    apply list_elem_of_In, py_in_spec in H.
    change SETTINGS_KEYS with REPLACE_TARGET_KEYS in H. congruence.
Qed.

Lemma enum_key_test (key : string) :
  String.eqb key "enumDescriptions" = bool_decide (key = "enumDescriptions").
Proof.
  destruct (String.eqb_spec key "enumDescriptions") as [->|Hne].
  - symmetry. apply bool_decide_eq_true_2. reflexivity.
  - symmetry. apply bool_decide_eq_false_2. exact Hne.
Qed.

(** C4, amended.  Both functions of the settings schema follow one rule, at
    every pair of every object they visit, at any depth and any position.
    A pair is a scalar leaf exactly when its value is a string and its key is
    one of title, label, contents, displayName, description,
    markdownDescription.  The count pass counts a scalar leaf as one item,
    an array under [enumDescriptions] as the number of its string elements,
    and goes into any other value; it goes into every element of an array
    and counts nothing else.  The translate pass replaces a scalar leaf by
    the result of [translate_text], the string elements of an array under
    [enumDescriptions] by theirs, goes into any other value, and keeps keys,
    order and every other value. *)
Theorem settings_selection_rule (env : Env) (api_key : string) :
  let walk := traverse_and_translate env api_key in
  let translated text := (r <- leaf env api_key text ;; ret (VStr r)) in
  (forall key value text,
     settings_rule key value = ScalarLeaf text <->
     value = VStr text /\
     In key ["title"; "label"; "contents"; "displayName"; "description";
             "markdownDescription"]) /\
  (forall key, py_in key REPLACE_TARGET_KEYS = true <->
               In key ["title"; "label"; "contents"; "displayName";
                       "description"; "markdownDescription"]) /\
  (forall fields,
     count_translatable_items (VObj fields)
     = py_sum (fun kv =>
         match settings_rule (fst kv) (snd kv) with
         | ScalarLeaf _ => 1
         | EnumList items => count_if is_str items
         | Visit value => count_translatable_items value
         end) fields) /\
  (forall items,
     count_translatable_items (VArr items)
     = py_sum count_translatable_items items) /\
  (forall obj, is_list obj = false -> (forall fields, obj <> VObj fields) ->
               count_translatable_items obj = 0) /\
  (forall fields s,
     walk (VObj fields) s
     = (fields' <- mapM (fun kv =>
           value' <- match settings_rule (fst kv) (snd kv) with
                     | ScalarLeaf text => translated text
                     | EnumList items =>
                         items' <- mapM (fun item =>
                           match item with
                           | VStr text => translated text
                           | _ => ret item
                           end) items ;;
                         ret (VArr items')
                     | Visit value => walk value
                     end ;;
           ret (fst kv, value')) fields ;;
        ret (VObj fields')) s) /\
  (forall items s,
     walk (VArr items) s = (items' <- mapM walk items ;; ret (VArr items')) s) /\
  (forall obj s, is_list obj = false -> (forall fields, obj <> VObj fields) ->
                 walk obj s = Ret obj s).
Proof.
  intros walk translated.
  split; [|split; [|split; [|split; [|split; [|split; [|split]]]]]].
  - intros key value text. unfold settings_rule. split.
    + destruct value as [|b|n|t|items|fields]; try discriminate.
      * destruct (bool_decide (key ∈ SETTINGS_KEYS)) eqn:Hin; [|discriminate].
        intros H. injection H as ->. split; [reflexivity|].
        apply bool_decide_eq_true_1, list_elem_of_In in Hin. exact Hin.
      * destruct (bool_decide (key = "enumDescriptions")); discriminate.
    + intros [-> Hin].
      rewrite bool_decide_eq_true_2; [reflexivity|].
      apply list_elem_of_In. exact Hin.
  - intros key. apply py_in_spec.
  - intros fields. simpl. apply py_sum_ext. intros [key value].
    unfold settings_rule. cbn [fst snd].
    rewrite settings_keys_test, enum_key_test.
    destruct value as [|b|n|t|items|fs]; cbn [is_str is_list items_of];
      rewrite ?andb_false_r, ?andb_true_r; try reflexivity.
    + destruct (bool_decide (key ∈ SETTINGS_KEYS)); reflexivity.
    + destruct (bool_decide (key = "enumDescriptions")); [|reflexivity].
      induction items as [|item r IH]; simpl; [reflexivity|].
      rewrite IH. reflexivity.
  - intros items. reflexivity.
  - intros obj Hl Ho. destruct obj; try reflexivity; [discriminate|].
    exfalso. eapply Ho. reflexivity.
  - intros fields s. subst walk. simpl. unfold bind at 1 4.
    rewrite (mapM_ext _ (fun kv =>
      value' <- match settings_rule (fst kv) (snd kv) with
                | ScalarLeaf text => translated text
                | EnumList items =>
                    items' <- mapM (fun item =>
                      match item with
                      | VStr text => translated text
                      | _ => ret item
                      end) items ;;
                    ret (VArr items')
                | Visit value => traverse_and_translate env api_key value
                end ;;
      ret (fst kv, value'))); [reflexivity|].
    intros [key value] s0. unfold settings_rule. cbn [fst snd].
    rewrite settings_keys_test, enum_key_test.
    destruct value as [|b|n|t|items|fs]; cbn [is_str is_list items_of text_of];
      rewrite ?andb_false_r, ?andb_true_r; try reflexivity.
    + destruct (bool_decide (key ∈ SETTINGS_KEYS)); [|reflexivity].
      subst translated. unfold bind, ret.
      destruct (leaf env api_key t s0); reflexivity.
    + destruct (bool_decide (key = "enumDescriptions")); [|reflexivity].
      unfold bind, ret.
      change (mapM (translate_enum_item env api_key) items s0)
        with (mapM (fun item => match item with
                                | VStr text => translated text
                                | _ => ret item
                                end) items s0).
      destruct (mapM _ items s0); reflexivity.
  - intros items s. reflexivity.
  - intros obj s Hl Ho. destruct obj; try reflexivity; [discriminate|].
    exfalso. eapply Ho. reflexivity.
Qed.

Lemma settings_selection_rule_witness :
  settings_rule "markdownDescription" (VStr "x") = ScalarLeaf "x" /\
  count_translatable_items (VNum "1") = 0 /\
  traverse_and_translate echo_env "key" (VStr "x") (loaded None)
  = Ret (VStr "x") (loaded None).
Proof.
  destruct (settings_selection_rule echo_env "key")
    as (Hrule & _ & _ & _ & Hcount & _ & _ & Hwalk).
  split; [|split].
  - apply Hrule. split; [reflexivity|]. simpl. auto 10.
  - apply Hcount; [reflexivity|discriminate].
  - apply Hwalk; [reflexivity|discriminate].
Defined.

(** ** C5: write-through *)

(** C5.  When [set] returns, the cache file holds the whole dictionary, the
    new entry included.  A translation obtained from the provider is in the
    cache file when [translate_text] returns, and stays both in the
    dictionary and in the file through every later call, however it ends. *)
Theorem write_through_durability (env : Env) (api_key text translated : string)
    (s : St) :
  (exists s',
     Dictionary.set text translated s = Ret tt s' /\
     dictionary (dict s') = <[text := translated]> (dictionary (dict s)) /\
     dict_file s' = Some (dictionary (dict s')) /\
     durable text translated s') /\
  (forall content,
     is_blank text = false ->
     dictionary (dict s) !! text = None ->
     provider env (clock s) api_key text = Reply content ->
     exists s',
       translate_text env text api_key s = Ret (strip content) s' /\
       dict_file s' = Some (dictionary (dict s')) /\
       durable text (strip content) s') /\
  (forall texts,
     durable text translated s ->
     durable text translated (final_state (mapM (leaf env api_key) texts s))).
Proof.
  split; [|split].
  - eexists. unfold durable. unfold_client. simpl.
    split; [reflexivity|]. split; [reflexivity|]. split; [reflexivity|].
    split; [apply lookup_insert_eq|].
    eexists. split; [reflexivity|apply lookup_insert_eq].
  - intros content Hb Hl Hr. eexists. unfold durable.
    unfold_client. simpl. rewrite Hb. simpl. rewrite Hl. simpl.
    rewrite Hr. simpl.
    split; [reflexivity|]. split; [reflexivity|].
    split; [apply lookup_insert_eq|].
    eexists. split; [reflexivity|apply lookup_insert_eq].
  - intros texts. apply (mapM_final_state (leaf env api_key)).
    intros t s0. apply leaf_keeps_durable.
Qed.

Lemma write_through_durability_witness :
  let s1 := final_state (translate_text echo_env "Hello" "key" (loaded None)) in
  translate_text echo_env "Hello" "key" (loaded None) = Ret "<Hello>" s1 /\
  dict_file s1 = Some (dictionary (dict s1)) /\
  durable "Hello" "<Hello>" s1 /\
  durable "Hello" "<Hello>"
    (final_state (mapM (leaf echo_env "key") ["Bye"; "Hello"] s1)).
Proof.
  intros s1.
  destruct (proj1 (proj2 (write_through_durability echo_env "key" "Hello"
                            "<Hello>" (loaded None)))
              " <Hello> " eq_refl eq_refl eq_refl) as (s' & Hrun & Hfile & Hd).
  assert (Hs : s1 = s') by (unfold s1; rewrite Hrun; reflexivity).
  rewrite Hs. split; [exact Hrun|]. split; [exact Hfile|]. split; [exact Hd|].
  apply (proj2 (proj2 (write_through_durability echo_env "key" "Hello"
                         "<Hello>" s'))).
  exact Hd.
Defined.

(** ** C6: write-back after the pass, and interruption *)

Section Interruption.
Variable env : Env.
Variable api_key : string.

Lemma fresh_bar_recorded (n : nat) (s : St) :
  recorded s -> recorded (fresh_bar n s).
Proof. intros H. exact H. Qed.

Lemma run_pass_recorded (schema : Schema) (data : Value) (s : St) :
  recorded s ->
  recorded (final_state (run_pass env api_key schema data s)).
Proof.
  intros H. rewrite run_pass_eq. apply pass_final_state.
  - intros t s0. apply leaf_keeps_recorded.
  - apply fresh_bar_recorded. exact H.
Qed.

(** A pass ends early only through an interrupt: status 0, and the cache
    file holds the whole dictionary. *)
Lemma run_pass_exit (schema : Schema) (data : Value) (s s' : St) (c : Z) :
  run_pass env api_key schema data s = Exit c s' ->
  c = 0%Z /\ dict_file s' = Some (dictionary (dict s')).
Proof.
  rewrite run_pass_eq. intros H. apply pass_exits in H.
  eapply leaves_exit. exact H.
Qed.

End Interruption.

(** The cases of [main] in which no file is written and the run does not
    end through an interrupt. *)
Ltac untouched :=
  split; [left; congruence|]; split; [left; congruence|];
  split; [reflexivity|]; intros ? ?; discriminate.

(** What [main] can have done to the files when it ends, and the state of
    the cache when it ends through an interrupt. *)
Lemma write_back_cases {Bytes : Type} (json_load : Bytes -> option Value)
    (json_dump : nat -> Value -> Bytes) (env : Env) (api_key : string)
    (fs fs' : gmap string Bytes) (s : St) (o : Outcome unit) :
  recorded s ->
  main_after_init json_load json_dump env api_key fs s = (fs', o) ->
  (fs' !! PACKAGE_JSON_PATH = fs !! PACKAGE_JSON_PATH \/
   exists bytes data data' s1,
     fs !! PACKAGE_JSON_PATH = Some bytes /\ json_load bytes = Some data /\
     run_pass env api_key Settings data s = Ret data' s1 /\
     fs' !! PACKAGE_JSON_PATH = Some (json_dump 2 data')) /\
  (fs' !! CONTRIBUTIONS_JSON_PATH = fs !! CONTRIBUTIONS_JSON_PATH \/
   exists pbytes pdata pdata' s1 bytes data data' s2,
     fs !! PACKAGE_JSON_PATH = Some pbytes /\ json_load pbytes = Some pdata /\
     run_pass env api_key Settings pdata s = Ret pdata' s1 /\
     fs !! CONTRIBUTIONS_JSON_PATH = Some bytes /\ json_load bytes = Some data /\
     run_pass env api_key Contributions data s1 = Ret data' s2 /\
     fs' !! CONTRIBUTIONS_JSON_PATH = Some (json_dump 4 data')) /\
  (forall path,
     path <> PACKAGE_JSON_PATH -> path <> CONTRIBUTIONS_JSON_PATH ->
     fs' !! path = fs !! path) /\
  (forall s',
     o = Exit 0 s' ->
     dict_file s' = Some (dictionary (dict s')) /\ recorded s').
Proof.
  intros Hrec Hmain.
  destruct (truthy api_key) eqn:Hkey.
  2:{ unfold main_after_init in Hmain. rewrite Hkey in Hmain. simpl in Hmain.
      apply pair_equal_spec in Hmain as [<- <-]. untouched. }
  destruct (fs !! PACKAGE_JSON_PATH) as [pbytes|] eqn:Hfile.
  2:{ unfold main_after_init in Hmain. rewrite Hkey, Hfile in Hmain.
      simpl in Hmain. apply pair_equal_spec in Hmain as [<- <-]. untouched. }
  destruct (json_load pbytes) as [pdata|] eqn:Hload.
  2:{ unfold main_after_init in Hmain. rewrite Hkey, Hfile, Hload in Hmain.
      simpl in Hmain. apply pair_equal_spec in Hmain as [<- <-]. untouched. }
  rewrite (main_after_init_eq json_load json_dump env api_key fs s pbytes pdata
             Hkey Hfile Hload) in Hmain.
  pose proof (run_pass_recorded env api_key Settings pdata s Hrec) as Hrec1.
  destruct (run_pass env api_key Settings pdata s) as [pdata' s1|c s1|e s1]
    eqn:Hpass; simpl in Hrec1.
  3:{ apply pair_equal_spec in Hmain as [<- <-]. untouched. }
  2:{ apply pair_equal_spec in Hmain as [<- <-].
      split; [left; congruence|]. split; [left; congruence|].
      split; [reflexivity|]. intros s' H. injection H as Hc Hs; subst c s'.
      split; [apply (run_pass_exit _ _ _ _ _ _ _ Hpass)|exact Hrec1]. }
  destruct (Nat.leb (count_translatable_items pdata) (size (dictionary (dict s)))).
  { apply pair_equal_spec in Hmain as [<- <-]. untouched. }
  cbv zeta in Hmain.
  assert (Hpkg : forall (fs0 : gmap string Bytes) b,
            (<[PACKAGE_JSON_PATH := b]> fs0) !! CONTRIBUTIONS_JSON_PATH
            = fs0 !! CONTRIBUTIONS_JSON_PATH)
    by (intros; apply lookup_insert_ne; discriminate).
  unfold translate_contributions_file in Hmain. rewrite Hpkg in Hmain.
  destruct (fs !! CONTRIBUTIONS_JSON_PATH) as [bytes|] eqn:Hcfile.
  2:{ apply pair_equal_spec in Hmain as [<- <-].
      rewrite Hpkg, Hcfile, lookup_insert_eq.
      split; [right; exists pbytes, pdata, pdata', s1; auto|]. split; [left; reflexivity|].
      split; [intros; apply lookup_insert_ne; congruence|discriminate]. }
  destruct (json_load bytes) as [data|] eqn:Hcload.
  2:{ apply pair_equal_spec in Hmain as [<- <-].
      rewrite Hpkg, Hcfile, lookup_insert_eq.
      split; [right; exists pbytes, pdata, pdata', s1; auto|]. split; [left; reflexivity|].
      split; [intros; apply lookup_insert_ne; congruence|discriminate]. }
  destruct (Nat.eqb (count_contributions_translatable_items data) 0).
  { apply pair_equal_spec in Hmain as [<- <-].
    rewrite Hpkg, Hcfile, lookup_insert_eq.
    split; [right; exists pbytes, pdata, pdata', s1; auto|]. split; [left; reflexivity|].
    split; [intros; apply lookup_insert_ne; congruence|discriminate]. }
  change ((Progress.new (count_contributions_translatable_items data) ;;
           translate_in_object env api_key data) s1)
    with (run_pass env api_key Contributions data s1) in Hmain.
  pose proof (run_pass_recorded env api_key Contributions data s1 Hrec1) as Hrec2.
  destruct (run_pass env api_key Contributions data s1) as [data' s2|c s2|e s2]
    eqn:Hcpass; simpl in Hrec2;
    apply pair_equal_spec in Hmain as [<- <-].
  - rewrite lookup_insert_eq, lookup_insert_ne, lookup_insert_eq by discriminate.
    split; [right; exists pbytes, pdata, pdata', s1; auto|]. split.
    + right. exists pbytes, pdata, pdata', s1, bytes, data, data', s2. auto 10.
    + split; [|discriminate].
      intros path H1 H2. rewrite !lookup_insert_ne by congruence. reflexivity.
  - rewrite Hpkg, Hcfile, lookup_insert_eq.
    split; [right; exists pbytes, pdata, pdata', s1; auto|]. split; [left; reflexivity|].
    split; [intros; apply lookup_insert_ne; congruence|].
    intros s' H. injection H as Hc Hs; subst c s'.
    split; [apply (run_pass_exit _ _ _ _ _ _ _ Hcpass)|exact Hrec2].
  - rewrite Hpkg, Hcfile, lookup_insert_eq.
    split; [right; exists pbytes, pdata, pdata', s1; auto|]. split; [left; reflexivity|].
    split; [intros; apply lookup_insert_ne; congruence|discriminate].
Qed.

(** C6.  [main] writes a document only with the tree that a completed pass
    over that document returned (package.json first, contributions.json
    after it), and touches no other file.  When the pass over a document is
    interrupted, by a signal at a leaf or by [KeyboardInterrupt] during a
    request, that document is byte for byte what it was before the run.  A
    run that ends through an interrupt leaves the whole dictionary in the
    cache file, with every translation the provider has answered with. *)
Theorem atomic_write_back {Bytes : Type} (json_load : Bytes -> option Value)
    (json_dump : nat -> Value -> Bytes) (env : Env) (api_key : string)
    (fs fs' : gmap string Bytes) (s : St) (o : Outcome unit) :
  recorded s ->
  main_after_init json_load json_dump env api_key fs s = (fs', o) ->
  (* written only after the pass, with its result *)
  ((fs' !! PACKAGE_JSON_PATH = fs !! PACKAGE_JSON_PATH \/
    exists bytes data data' s1,
      fs !! PACKAGE_JSON_PATH = Some bytes /\ json_load bytes = Some data /\
      run_pass env api_key Settings data s = Ret data' s1 /\
      fs' !! PACKAGE_JSON_PATH = Some (json_dump 2 data')) /\
   (fs' !! CONTRIBUTIONS_JSON_PATH = fs !! CONTRIBUTIONS_JSON_PATH \/
    exists pbytes pdata pdata' s1 bytes data data' s2,
      fs !! PACKAGE_JSON_PATH = Some pbytes /\ json_load pbytes = Some pdata /\
      run_pass env api_key Settings pdata s = Ret pdata' s1 /\
      fs !! CONTRIBUTIONS_JSON_PATH = Some bytes /\ json_load bytes = Some data /\
      run_pass env api_key Contributions data s1 = Ret data' s2 /\
      fs' !! CONTRIBUTIONS_JSON_PATH = Some (json_dump 4 data')) /\
   (forall path,
      path <> PACKAGE_JSON_PATH -> path <> CONTRIBUTIONS_JSON_PATH ->
      fs' !! path = fs !! path)) /\
  (* interrupted during the pass over package.json *)
  (forall bytes data c s1,
     fs !! PACKAGE_JSON_PATH = Some bytes -> json_load bytes = Some data ->
     run_pass env api_key Settings data s = Exit c s1 ->
     fs' !! PACKAGE_JSON_PATH = fs !! PACKAGE_JSON_PATH /\
     fs' !! CONTRIBUTIONS_JSON_PATH = fs !! CONTRIBUTIONS_JSON_PATH) /\
  (* interrupted during the pass over contributions.json *)
  (forall pbytes pdata pdata' s1 bytes data c s2,
     fs !! PACKAGE_JSON_PATH = Some pbytes -> json_load pbytes = Some pdata ->
     run_pass env api_key Settings pdata s = Ret pdata' s1 ->
     fs !! CONTRIBUTIONS_JSON_PATH = Some bytes -> json_load bytes = Some data ->
     run_pass env api_key Contributions data s1 = Exit c s2 ->
     fs' !! CONTRIBUTIONS_JSON_PATH = fs !! CONTRIBUTIONS_JSON_PATH) /\
  (* the cache at the interruption *)
  (forall s',
     o = Exit 0 s' ->
     dict_file s' = Some (dictionary (dict s')) /\
     forall t content,
       In (Post t (Reply content)) (trace s') ->
       exists stored, dict_file s' = Some stored /\
                      stored !! t = Some (strip content)).
Proof.
  intros Hrec Hmain.
  destruct (write_back_cases json_load json_dump env api_key fs fs' s o
              Hrec Hmain) as (Hpkg & Hctr & Hother & Hexit).
  split; [auto|]. split; [|split].
  - intros bytes data c s1 Hfile Hload Hpass.
    split.
    + destruct Hpkg as [Hpkg|(b & d & d' & s1' & Hf & Hl & Hp & _)];
        [exact Hpkg|].
      congruence.
    + destruct Hctr as [Hctr|(b & d & d' & s1' & _ & _ & _ & _ & Hf & Hl & Hp & _)];
        [exact Hctr|].
      congruence.
  - intros pbytes pdata pdata' s1 bytes data c s2 Hf Hl Hp Hcf Hcl Hcp.
    destruct Hctr as [Hctr|(b & d & d' & s1' & cb & cd & cd' & s2' &
                              Hf' & Hl' & Hp' & Hcf' & Hcl' & Hcp' & _)];
      [exact Hctr|].
    assert (d = pdata) by congruence. subst d.
    assert (s1' = s1) by congruence. subst s1'.
    congruence.
  - intros s' Ho. destruct (Hexit s' Ho) as [Hfile Hrec'].
    split; [exact Hfile|]. intros t content Hin.
    eexists. split; [exact Hfile|]. apply Hrec'. exact Hin.
Qed.

Lemma atomic_write_back_witness :
  (* a signal during the pass over package.json *)
  (let doc := VObj [("title", VStr "Hello"); ("label", VStr "Bye")] in
   let fs : gmap string TreeFiles.Bytes := {[ PACKAGE_JSON_PATH := (4, doc) ]} in
   let r := main_after_init TreeFiles.json_load TreeFiles.json_dump
              interrupted_env "key" fs (loaded None) in
   let s' := final_state (snd r) in
   r = (fs, Exit 0 s') /\
   fst r !! PACKAGE_JSON_PATH = fs !! PACKAGE_JSON_PATH /\
   dict_file s' = Some (dictionary (dict s')) /\
   exists stored, dict_file s' = Some stored /\
                  stored !! "Hello" = Some (strip " <Hello> ")) /\
  (* a signal during the pass over contributions.json *)
  (let doc := VObj [("title", VStr "Hello")] in
   let cdoc := VObj [("label", VStr "Bye")] in
   let fs : gmap string TreeFiles.Bytes :=
     <[ CONTRIBUTIONS_JSON_PATH := (4, cdoc) ]> {[ PACKAGE_JSON_PATH := (4, doc) ]} in
   let r := main_after_init TreeFiles.json_load TreeFiles.json_dump
              interrupted_env "key" fs (loaded None) in
   fst r !! PACKAGE_JSON_PATH = Some (2, VObj [("title", VStr "<Hello>")]) /\
   fst r !! CONTRIBUTIONS_JSON_PATH = fs !! CONTRIBUTIONS_JSON_PATH).
Proof.
  assert (Hrec : recorded (loaded None)) by (intros t c []).
  split.
  - intros doc fs r s'.
    assert (Hr : r = (fs, Exit 0 s')) by (vm_compute; reflexivity).
    destruct (atomic_write_back TreeFiles.json_load TreeFiles.json_dump
                interrupted_env "key" fs fs (loaded None) (Exit 0 s') Hrec Hr)
      as (_ & Hpkg & _ & Hcache).
    destruct (Hcache s' eq_refl) as [Hfile Hall].
    split; [exact Hr|]. split.
    + rewrite Hr.
      apply (Hpkg (4, doc) doc 0%Z
               (final_state (run_pass interrupted_env "key" Settings doc
                               (loaded None))));
        vm_compute; reflexivity.
    + split; [exact Hfile|]. apply Hall. vm_compute. auto.
  - intros doc cdoc fs r.
    pose (s1 := final_state (run_pass interrupted_env "key" Settings doc
                               (loaded None))).
    pose (s2 := final_state (snd r)).
    assert (Hr : r = (fst r, Exit 0 s2)) by (vm_compute; reflexivity).
    destruct (atomic_write_back TreeFiles.json_load TreeFiles.json_dump
                interrupted_env "key" fs (fst r) (loaded None) (Exit 0 s2)
                Hrec Hr) as (_ & _ & Hctr & _).
    split; [vm_compute; reflexivity|].
    apply (Hctr (4, doc) doc (VObj [("title", VStr "<Hello>")]) s1
             (4, cdoc) cdoc 0%Z
             (final_state (run_pass interrupted_env "key" Contributions cdoc s1)));
      vm_compute; reflexivity.
Defined.

(** ** C7: a failure of the provider stays with its leaf *)



(** ** C8: pass-through *)

(** C8.  On a text that is empty or made of whitespace only,
    [translate_text] returns the text and leaves the whole state as it was:
    no counter moves, no method of the dictionary is called, the cache and
    its file are untouched. *)
Theorem pass_through (env : Env) (text api_key : string) (s : St) :
  forallb py_isspace (list_ascii_of_string text) = true ->
  translate_text env text api_key s = Ret text s.
Proof.
  intros H. unfold translate_text.
  rewrite (is_blank_all_space _ H). reflexivity.
Qed.

Lemma pass_through_witness :
  translate_text echo_env "" "key" (loaded None) = Ret "" (loaded None) /\
  translate_text echo_env "   " "key" (loaded None) = Ret "   " (loaded None).
Proof.
  split; apply pass_through; reflexivity.
Defined.

(** ** C9: cache correctness *)

(** C9, as stated, fails on a blank text: after [set(" ", "x")],
    [translate_text(" ")] takes the pass-through path, returns [" "] and not
    the stored ["x"], and records no cache hit. *)
Lemma cache_hit_counterexample :
  exists s1,
    Dictionary.set " " "x" (loaded None) = Ret tt s1 /\
    translate_text echo_env " " "key" s1 = Ret " " s1 /\
    " " <> "x".
Proof.
  eexists. split; [reflexivity|]. split; [reflexivity|discriminate].
Qed.

Section CacheCorrectness.
Variable env : Env.
Variable api_key : string.

(** While the dictionary holds an entry for [T], no call asks the provider
    about [T]. *)
Lemma leaf_no_request_for (T R text : string) (n : nat) (s : St) :
  dictionary (dict s) !! T = Some R /\
  count_if (is_request_for T) (trace s) = n ->
  let s' := final_state (leaf env api_key text s) in
  dictionary (dict s') !! T = Some R /\
  count_if (is_request_for T) (trace s') = n.
Proof.
  intros [Hm Hn].
  assert (Hne : dictionary (dict s) !! text = None -> String.eqb text T = false).
  { intros Hnone. apply String.eqb_neq. intros ->. congruence. }
  leaf_cases env api_key text s; try (split; assumption);
    rewrite ?(Hne eq_refl); simpl; split; try assumption;
    rewrite lookup_insert_ne; try assumption;
    intros ->; congruence.
Qed.

Lemma load_reads_file (p : string) (s : St) (stored : gmap string string) :
  dict_file s = Some stored ->
  exists s',
    Dictionary.init (PyPath p) s = Ret tt s' /\
    dictionary (dict s') = stored /\ dict_file s' = Some stored.
Proof.
  intros H. unfold Dictionary.init, Dictionary.load. simpl. rewrite H.
  eexists. split; [reflexivity|]. split; reflexivity.
Qed.

End CacheCorrectness.

(** C9, amended.  After [set(T, R)] returns, through any later calls of the
    run: [get(T)] returns [R]; no request for [T] is sent to the provider;
    a dictionary constructed later on a [Path] to the same file holds [R]
    for [T]; and, when [T] is not blank, [translate_text(T)] takes the
    cache-hit path and returns [R].  (A blank [T] is passed through.) *)
Theorem cache_correctness (env : Env) (api_key T R : string)
    (texts : list string) (s : St) :
  let s1 := final_state (Dictionary.set T R s) in
  let s2 := final_state (mapM (leaf env api_key) texts s1) in
  Dictionary.set T R s = Ret tt s1 /\
  (exists s3, Dictionary.get T s2 = Ret (Some R) s3) /\
  count_if (is_request_for T) (trace s2)
  = count_if (is_request_for T) (trace s1) /\
  (forall p s0,
     dict_file s0 = dict_file s2 ->
     exists s3 s4,
       Dictionary.init (PyPath p) s0 = Ret tt s3 /\
       Dictionary.get T s3 = Ret (Some R) s4) /\
  (is_blank T = false ->
   exists s3,
     translate_text env T api_key s2 = Ret R s3 /\
     cache_hits (bar s3) = cache_hits (bar s2) + 1 /\
     api_calls (bar s3) = api_calls (bar s2) /\
     count_events is_post s3 = count_events is_post s2 /\
     dict s3 = dict s2 /\ dict_file s3 = dict_file s2).
Proof.
  intros s1 s2.
  assert (H1 : Dictionary.set T R s = Ret tt s1) by reflexivity.
  assert (Hd1 : durable T R s1).
  { unfold durable, s1. unfold_client. simpl.
    split; [apply lookup_insert_eq|].
    eexists. split; [reflexivity|apply lookup_insert_eq]. }
  assert (Hd2 : durable T R s2).
  { apply (mapM_final_state (leaf env api_key) (durable T R)); [|exact Hd1].
    intros t s0. apply leaf_keeps_durable. }
  assert (Hq : dictionary (dict s2) !! T = Some R /\
               count_if (is_request_for T) (trace s2)
               = count_if (is_request_for T) (trace s1)).
  { apply (mapM_final_state (leaf env api_key)
             (fun s0 => dictionary (dict s0) !! T = Some R /\
                        count_if (is_request_for T) (trace s0)
                        = count_if (is_request_for T) (trace s1))).
    - intros t s0. apply leaf_no_request_for.
    - split; [apply Hd1|reflexivity]. }
  destruct Hd2 as [Hm2 (stored & Hf2 & Hs2)].
  split; [exact H1|]. split.
  { eexists. unfold Dictionary.get, emit, bind. simpl. rewrite Hm2. reflexivity. }
  split; [apply Hq|]. split.
  { intros p s0 Hs0. rewrite Hf2 in Hs0.
    destruct (load_reads_file p s0 stored Hs0) as (s3 & Hinit & Hdict & _).
    exists s3. eexists. split; [exact Hinit|].
    unfold Dictionary.get, emit, bind. simpl. rewrite Hdict, Hs2. reflexivity. }
  intros Hb. eexists. unfold count_events.
  unfold_client. simpl. rewrite Hb. simpl. rewrite Hm2. simpl.
  rewrite Hm2. simpl.
  split; [reflexivity|]. repeat split.
Qed.

Lemma cache_correctness_witness :
  let s1 := final_state (Dictionary.set "Hello" "Bonjour" (loaded None)) in
  let s2 := final_state (mapM (leaf echo_env "key") ["Bye"; "Hello"] s1) in
  (exists s3,
     translate_text echo_env "Hello" "key" s2 = Ret "Bonjour" s3 /\
     cache_hits (bar s3) = cache_hits (bar s2) + 1 /\
     api_calls (bar s3) = api_calls (bar s2) /\
     count_events is_post s3 = count_events is_post s2 /\
     dict s3 = dict s2 /\ dict_file s3 = dict_file s2) /\
  (exists s3 s4,
     Dictionary.init (PyPath DICTIONARY_FILE) s2 = Ret tt s3 /\
     Dictionary.get "Hello" s3 = Ret (Some "Bonjour") s4).
Proof.
  intros s1 s2.
  destruct (cache_correctness echo_env "key" "Hello" "Bonjour" ["Bye"; "Hello"]
              (loaded None)) as (_ & _ & _ & Hlater & Hhit).
  split.
  - apply Hhit. reflexivity.
  - apply Hlater. reflexivity.
Defined.

(** ** C10: the counters of the progress bar *)

(** C10.  A call of [translate_text] on a text that is not blank adds one
    to [current] and one to exactly one of [api_calls], [cache_hits],
    whatever the provider answers; on a miss it is [api_calls], also when
    the request fails.  So [current = api_calls + cache_hits] is kept by any
    sequence of calls. *)
Theorem progress_counter_invariant (env : Env) (api_key : string) :
  (forall text s,
     is_blank text = false ->
     let s' := final_state (translate_text env text api_key s) in
     current (bar s') = current (bar s) + 1 /\
     ((api_calls (bar s') = api_calls (bar s) + 1 /\
       cache_hits (bar s') = cache_hits (bar s) /\
       dictionary (dict s) !! text = None)
      \/ (api_calls (bar s') = api_calls (bar s) /\
          cache_hits (bar s') = cache_hits (bar s) + 1 /\
          is_Some (dictionary (dict s) !! text)))) /\
  (forall texts s,
     current (bar s) = api_calls (bar s) + cache_hits (bar s) ->
     let s' := final_state (mapM (fun t => translate_text env t api_key) texts s) in
     current (bar s') = api_calls (bar s') + cache_hits (bar s')).
Proof.
  split.
  - intros text s Hb. client_cases env api_key text s;
      try discriminate; split; try reflexivity;
      solve [left; auto | right; eauto].
  - intros texts s Hs.
    apply (mapM_final_state (fun t => translate_text env t api_key)
             (fun s0 => current (bar s0) = api_calls (bar s0) + cache_hits (bar s0)));
      [|exact Hs].
    clear. intros text s H. client_cases env api_key text s; lia.
Qed.

Lemma progress_counter_invariant_witness :
  let s1 := final_state (translate_text flaky_env "Hello" "key" (loaded None)) in
  (current (bar s1) = 1 /\ api_calls (bar s1) = 1 /\ cache_hits (bar s1) = 0) /\
  let s2 := final_state (mapM (fun t => translate_text flaky_env t "key")
                           ["Hello"; ""; "Hello"; "Hello"] (loaded None)) in
  current (bar s2) = api_calls (bar s2) + cache_hits (bar s2).
Proof.
  split.
  - destruct (proj1 (progress_counter_invariant flaky_env "key")
                "Hello" (loaded None) eq_refl) as [Hc _].
    split; [exact Hc|]. split; reflexivity.
  - apply (proj2 (progress_counter_invariant flaky_env "key")). reflexivity.
Defined.

(** * Further properties of the code *)

(** ** The dictionary cache *)

(** X3.  [main] constructs the dictionary on the [str] [DICTIONARY_FILE],
    and [load] calls [exists()] on it: whatever the key, the documents, the
    cache file and the provider, [main] ends in [AttributeError] before it
    reads the key or a document; no file is touched and no request is
    sent. *)
Theorem main_raises_attribute_error {Bytes : Type}
    (json_load : Bytes -> option Value) (json_dump : nat -> Value -> Bytes)
    (env : Env) (api_key : string) (fs : gmap string Bytes)
    (stored : option (gmap string string)) :
  exists s',
    main json_load json_dump env api_key fs stored = (fs, Raise AttributeError s') /\
    dict_file s' = stored /\ trace s' = [] /\ clock s' = 0 /\
    forall p s, exists s0, Dictionary.init (PyStr p) s = Raise AttributeError s0 /\
                           dict_file s0 = dict_file s.
Proof.
  eexists. split; [reflexivity|]. repeat split.
  intros p s. eexists. split; reflexivity.
Qed.

(** X4.  [get] after [set]: the key that was set has the new value, also
    when it had another one before; every other key has the value it had.
    Setting a key the dictionary has keeps the number of entries, setting a
    new key adds one. *)
Theorem get_after_set (T R T' : string) (s : St) :
  let s1 := final_state (Dictionary.set T R s) in
  (exists s2, Dictionary.get T s1 = Ret (Some R) s2) /\
  (T' <> T ->
   exists s2, Dictionary.get T' s1 = Ret (dictionary (dict s) !! T') s2) /\
  (is_Some (dictionary (dict s) !! T) ->
   size (dictionary (dict s1)) = size (dictionary (dict s))) /\
  (dictionary (dict s) !! T = None ->
   size (dictionary (dict s1)) = S (size (dictionary (dict s)))).
Proof.
  intros s1. subst s1. unfold_client. simpl.
  split; [eexists; rewrite lookup_insert_eq; reflexivity|].
  split; [intros Hne; eexists; rewrite lookup_insert_ne by congruence; reflexivity|].
  split.
  - intros [r Hr]. rewrite <- (insert_delete_id _ _ _ Hr) at 2.
    rewrite <- insert_delete_eq.
    rewrite !map_size_insert_None by apply lookup_delete_eq. reflexivity.
  - intros Hnone. apply map_size_insert_None. exact Hnone.
Qed.

Lemma get_after_set_witness :
  let s := final_state (Dictionary.set "a" "1" (loaded None)) in
  let s1 := final_state (Dictionary.set "a" "2" s) in
  (exists s2, Dictionary.get "b" s1 = Ret (dictionary (dict s) !! "b") s2) /\
  size (dictionary (dict s1)) = size (dictionary (dict s)) /\
  size (dictionary (dict s)) = S (size (dictionary (dict (loaded None)))).
Proof.
  intros s s1. split; [|split].
  - apply (get_after_set "a" "2" "b" s). discriminate.
  - apply (get_after_set "a" "2" "b" s). exists "1". reflexivity.
  - apply (get_after_set "a" "1" "b" (loaded None)). reflexivity.
Defined.

(** ** Whitespace *)

Lemma lstrip_chars_nil_iff (l : list ascii) :
  lstrip_chars l = [] <-> forallb py_isspace l = true.
Proof.
  induction l as [|c r IH]; simpl; [tauto|].
  destruct (py_isspace c); simpl; [exact IH|].
  split; discriminate.
Qed.

Lemma lstrip_chars_head (l : list ascii) (c : ascii) (r : list ascii) :
  lstrip_chars l = c :: r -> py_isspace c = false.
Proof.
  induction l as [|x l' IH]; simpl; [discriminate|].
  destruct (py_isspace x) eqn:Hx; [exact IH|].
  intros H. injection H as <- _. exact Hx.
Qed.

Lemma lstrip_chars_fixed (c : ascii) (r : list ascii) :
  py_isspace c = false -> lstrip_chars (c :: r) = c :: r.
Proof. intros H. simpl. rewrite H. reflexivity. Qed.

Lemma lstrip_chars_idempotent (l : list ascii) :
  lstrip_chars (lstrip_chars l) = lstrip_chars l.
Proof.
  destruct (lstrip_chars l) as [|c r] eqn:H; [reflexivity|].
  apply lstrip_chars_fixed. eapply lstrip_chars_head. exact H.
Qed.

Lemma lstrip_chars_snoc (l : list ascii) (c : ascii) :
  py_isspace c = false -> lstrip_chars (l ++ [c]) = lstrip_chars l ++ [c].
Proof.
  intros Hc. induction l as [|x l' IH]; simpl.
  - rewrite Hc. reflexivity.
  - destruct (py_isspace x); [exact IH|reflexivity].
Qed.

(** [strip] does nothing to a text it has produced. *)
Lemma strip_idempotent (text : string) : strip (strip text) = strip text.
Proof.
  unfold strip. rewrite list_ascii_of_string_of_list_ascii. f_equal.
  set (k := lstrip_chars (list_ascii_of_string text)).
  assert (Hk : lstrip_chars k = k) by apply lstrip_chars_idempotent.
  destruct k as [|c r] eqn:Ek; [reflexivity|].
  assert (Hc : py_isspace c = false)
    by (eapply lstrip_chars_head; exact Ek).
  assert (Hr : rev (lstrip_chars (rev (c :: r)))
               = c :: rev (lstrip_chars (rev r))).
  { simpl rev at 2. rewrite (lstrip_chars_snoc _ _ Hc), rev_app_distr.
    reflexivity. }
  rewrite Hr, (lstrip_chars_fixed _ _ Hc).
  rewrite <- Hr, rev_involutive, lstrip_chars_idempotent. reflexivity.
Qed.

(** The guard of [translate_text] holds exactly for the texts made of
    whitespace only (the empty text among them). *)
Lemma is_blank_iff (text : string) :
  is_blank text = true <->
  forallb py_isspace (list_ascii_of_string text) = true.
Proof.
  split; [|apply is_blank_all_space].
  unfold is_blank. intros H. apply orb_true_iff in H as [H|H].
  - destruct text; [reflexivity|discriminate].
  - unfold strip in H.
    destruct (rev (lstrip_chars (rev (lstrip_chars (list_ascii_of_string text)))))
      as [|c r] eqn:E; [|discriminate].
    apply (f_equal (@rev ascii)) in E. rewrite rev_involutive in E. simpl in E.
    apply lstrip_chars_nil_iff in E.
    destruct (lstrip_chars (list_ascii_of_string text)) as [|c r] eqn:El.
    + apply lstrip_chars_nil_iff. exact El.
    + apply lstrip_chars_head in El. simpl in E.
      rewrite forallb_app in E. simpl in E. rewrite El in E.
      rewrite andb_false_r in E. discriminate.
Qed.

(** ** The translation client, call after call *)

Section ClientInvariants.
Variable env : Env.
Variable api_key : string.

Lemma leaf_grows (text : string) (m : gmap string string) (r0 : nat) (s : St) :
  m ⊆ dictionary (dict s) /\
  size (dictionary (dict s)) + r0 = size m + count_events is_reply s ->
  let s' := final_state (leaf env api_key text s) in
  m ⊆ dictionary (dict s') /\
  size (dictionary (dict s')) + r0 = size m + count_events is_reply s'.
Proof.
  intros [Hsub Hsize]. unfold count_events in *.
  leaf_cases env api_key text s; try (split; [assumption|lia]).
  split.
  - etransitivity; [exact Hsub|]. apply insert_subseteq. exact Hlookup.
  - rewrite map_size_insert_None by exact Hlookup. lia.
Qed.

Lemma leaf_counts_events (text : string) (p0 g0 : nat) (s : St) :
  api_calls (bar s) + p0 = count_events is_post s /\
  cache_hits (bar s) + g0 = count_events is_cache_get s ->
  let s' := final_state (leaf env api_key text s) in
  api_calls (bar s') + p0 = count_events is_post s' /\
  cache_hits (bar s') + g0 = count_events is_cache_get s'.
Proof.
  intros [Hp Hg]. unfold count_events in *.
  leaf_cases env api_key text s; split; lia.
Qed.

Lemma leaf_keeps_in_sync (text : string) (s : St) :
  in_sync s -> in_sync (final_state (leaf env api_key text s)).
Proof.
  unfold in_sync. intros H.
  leaf_cases env api_key text s; try assumption; left; reflexivity.
Qed.

Lemma leaf_keeps_stripped (text : string) (s : St) :
  (forall t r, dictionary (dict s) !! t = Some r -> strip r = r) ->
  let s' := final_state (leaf env api_key text s) in
  forall t r, dictionary (dict s') !! t = Some r -> strip r = r.
Proof.
  intros H. leaf_cases env api_key text s; try assumption.
  intros t r. rewrite lookup_insert. case_decide.
  - intros Hr. injection Hr as <-. apply strip_idempotent.
  - apply H.
Qed.

Lemma run_pass_final_state (schema : Schema) (data : Value) (s : St)
    (I : St -> Prop) :
  (forall t s0, I s0 -> I (final_state (leaf env api_key t s0))) ->
  I (fresh_bar (count_pass schema data) s) ->
  I (final_state (run_pass env api_key schema data s)).
Proof.
  intros Hstep Hs. rewrite run_pass_eq. apply pass_final_state; assumption.
Qed.

End ClientInvariants.

(** X5.  A pass never removes or changes an entry of the dictionary: it
    only adds entries, one for each answer the provider gave during the
    pass, however the pass ends. *)
Theorem cache_only_grows (env : Env) (api_key : string) (schema : Schema)
    (data : Value) (s : St) :
  let s' := final_state (run_pass env api_key schema data s) in
  dictionary (dict s) ⊆ dictionary (dict s') /\
  size (dictionary (dict s')) + count_events is_reply s
  = size (dictionary (dict s)) + count_events is_reply s'.
Proof.
  apply (run_pass_final_state env api_key schema data s
           (fun s0 => dictionary (dict s) ⊆ dictionary (dict s0) /\
                      size (dictionary (dict s0)) + count_events is_reply s
                      = size (dictionary (dict s)) + count_events is_reply s0)).
  - intros t s0. apply leaf_grows.
  - split; reflexivity.
Qed.

(** X6.  The two figures a pass reports are true counts: when the pass
    ends, however it ends, [api_calls] is the number of requests sent to the
    provider during the pass (failed ones included) and [cache_hits] the
    number of reads of the dictionary. *)
Theorem counters_count_events (env : Env) (api_key : string) (schema : Schema)
    (data : Value) (s : St) :
  let s' := final_state (run_pass env api_key schema data s) in
  api_calls (bar s') + count_events is_post s = count_events is_post s' /\
  cache_hits (bar s') + count_events is_cache_get s
  = count_events is_cache_get s'.
Proof.
  apply (run_pass_final_state env api_key schema data s
           (fun s0 => api_calls (bar s0) + count_events is_post s
                      = count_events is_post s0 /\
                      cache_hits (bar s0) + count_events is_cache_get s
                      = count_events is_cache_get s0)).
  - intros t s0. apply leaf_counts_events.
  - split; reflexivity.
Qed.

(** X7.  Memory and file stay equal: when the dictionary and the cache file
    hold the same mapping before a call of [translate_text] at a leaf (as
    they do after construction), they hold the same mapping after it, and
    after a whole pass, however it ends. *)
Theorem memory_and_file_agree (env : Env) (api_key : string) (schema : Schema)
    (data : Value) (text : string) (s : St) :
  in_sync s ->
  in_sync (final_state (leaf env api_key text s)) /\
  in_sync (final_state (run_pass env api_key schema data s)).
Proof.
  intros H. split; [apply leaf_keeps_in_sync; exact H|].
  apply run_pass_final_state; [|exact H].
  intros t s0. apply leaf_keeps_in_sync.
Qed.

Lemma memory_and_file_agree_witness :
  in_sync (final_state (leaf flaky_env "key" "Hello" (loaded None))) /\
  in_sync (final_state (run_pass flaky_env "key" Settings
                          (VObj [("title", VStr "Hello"); ("label", VStr "Bye")])
                          (loaded None))).
Proof.
  apply memory_and_file_agree. right. split; reflexivity.
Defined.

(** X8.  No translation enters the dictionary with whitespace at either
    end: when every value of the dictionary is its own [strip] before a
    pass, the same holds after it. *)
Theorem cached_translations_are_stripped (env : Env) (api_key : string)
    (schema : Schema) (data : Value) (s : St) :
  (forall t r, dictionary (dict s) !! t = Some r -> strip r = r) ->
  forall t r,
    dictionary (dict (final_state (run_pass env api_key schema data s))) !! t
    = Some r ->
    strip r = r.
Proof.
  intros H.
  apply (run_pass_final_state env api_key schema data s
           (fun s0 => forall t r, dictionary (dict s0) !! t = Some r -> strip r = r)).
  - intros t s0. apply leaf_keeps_stripped.
  - exact H.
Qed.

Lemma cached_translations_are_stripped_witness :
  let s' := final_state (run_pass echo_env "key" Settings
                           (VObj [("title", VStr "Hello")]) (loaded None)) in
  dictionary (dict s') !! "Hello" = Some "<Hello>" /\ strip "<Hello>" = "<Hello>".
Proof.
  intros s'.
  assert (H : dictionary (dict s') !! "Hello" = Some "<Hello>")
    by (vm_compute; reflexivity).
  split; [exact H|].
  apply (cached_translations_are_stripped echo_env "key" Settings
           (VObj [("title", VStr "Hello")]) (loaded None)
           ltac:(intros t r Hr; discriminate Hr) "Hello" "<Hello>" H).
Defined.

(** X9.  A reply made of whitespace only erases the text: [translate_text]
    returns the empty string and stores it for the text, and from then on
    the text is a cache hit that returns the empty string, with no further
    request. *)
Theorem whitespace_reply_erases_text (env : Env) (api_key text content : string)
    (s : St) :
  is_blank text = false ->
  dictionary (dict s) !! text = None ->
  provider env (clock s) api_key text = Reply content ->
  forallb py_isspace (list_ascii_of_string content) = true ->
  exists s1 s2,
    translate_text env text api_key s = Ret "" s1 /\
    dictionary (dict s1) !! text = Some "" /\
    dict_file s1 = Some (dictionary (dict s1)) /\
    translate_text env text api_key s1 = Ret "" s2 /\
    count_events is_post s2 = count_events is_post s1 /\
    cache_hits (bar s2) = cache_hits (bar s1) + 1.
Proof.
  intros Hb Hl Hr Hc. unfold count_events.
  unfold_client. simpl. rewrite Hb. simpl. rewrite Hl. simpl. rewrite Hr.
  simpl. rewrite (strip_all_space _ Hc).
  do 2 eexists. split; [reflexivity|]. simpl.
  repeat (rewrite lookup_insert_eq; simpl).
  repeat (split; [reflexivity|]); repeat (rewrite lookup_insert_eq; simpl).
  repeat split.
Qed.

Lemma whitespace_reply_erases_text_witness :
  let env := {| provider := fun _ _ _ => Reply "  ";
                signal := fun _ => false |} in
  exists s1 s2,
    translate_text env "Hello" "key" (loaded None) = Ret "" s1 /\
    dictionary (dict s1) !! "Hello" = Some "" /\
    dict_file s1 = Some (dictionary (dict s1)) /\
    translate_text env "Hello" "key" s1 = Ret "" s2 /\
    count_events is_post s2 = count_events is_post s1 /\
    cache_hits (bar s2) = cache_hits (bar s1) + 1.
Proof.
  intros env.
  apply (whitespace_reply_erases_text env "key" "Hello" "  " (loaded None));
    reflexivity.
Defined.

(** X10.  The pass-through guard of [translate_text] holds exactly for the
    texts made of whitespace only.  A text with one character that is not
    whitespace is always processed: the call consults the dictionary and
    produces exactly one [update], whatever happens next. *)
Theorem pass_through_exactly_blank (env : Env) (api_key text : string) (s : St) :
  (is_blank text = true <->
   forallb py_isspace (list_ascii_of_string text) = true) /\
  (forallb py_isspace (list_ascii_of_string text) = false ->
   let s' := final_state (translate_text env text api_key s) in
   count_events is_update s' = S (count_events is_update s) /\
   In (CacheExists text) (trace s')).
Proof.
  split; [apply is_blank_iff|].
  intros Hns.
  assert (Hb : is_blank text = false).
  { destruct (is_blank text) eqn:E; [|reflexivity].
    apply is_blank_iff in E. congruence. }
  unfold count_events.
  client_cases env api_key text s; try discriminate; split; auto 10.
Qed.

Lemma pass_through_exactly_blank_witness :
  let s' := final_state (translate_text flaky_env " a " "key" (loaded None)) in
  count_events is_update s' = S (count_events is_update (loaded None)) /\
  In (CacheExists " a ") (trace s').
Proof.
  apply (pass_through_exactly_blank flaky_env "key" " a " (loaded None)).
  reflexivity.
Defined.

(** ** What a walk leaves alone *)

Lemma mapM_map {A B C} (f : A -> M B) (e : A -> C) (e' : B -> C) (l : list A) :
  Forall (fun x => forall s y s', f x s = Ret y s' -> e' y = e x) l ->
  forall s ys s', mapM f l s = Ret ys s' -> map e' ys = map e l.
Proof.
  induction 1 as [|x r Hx _ IH]; intros s ys s'; simpl.
  - unfold ret. intros H. apply Ret_inj in H as [<- _]. reflexivity.
  - unfold bind, ret.
    destruct (f x s) as [y s1| |] eqn:Hf; try discriminate.
    destruct (mapM f r s1) as [ys' s2| |] eqn:Hr; try discriminate.
    intros H. apply Ret_inj in H as [<- _]. simpl.
    rewrite (Hx _ _ _ Hf), (IH _ _ _ Hr). reflexivity.
Qed.

Lemma erase_settings_kind (v : Value) :
  is_str (erase_settings v) = is_str v /\
  is_list (erase_settings v) = is_list v.
Proof. destruct v; simpl; auto. Qed.

Lemma erase_contributions_kind (v : Value) :
  is_str (erase_contributions v) = is_str v.
Proof. destruct v; reflexivity. Qed.

Section Skeleton.
Variable env : Env.
Variable api_key : string.

Lemma enum_items_erased (items items' : list Value) (s s' : St) :
  mapM (translate_enum_item env api_key) items s = Ret items' s' ->
  map erase_enum_item items' = map erase_enum_item items.
Proof.
  apply mapM_map. apply Forall_forall. intros item _ s0 y s1.
  destruct item as [|b|n|t|l|f]; simpl; unfold ret, bind;
    try (intros H; apply Ret_inj in H as [<- _]; reflexivity).
  destruct (leaf env api_key t s0); try discriminate.
  intros H. apply Ret_inj in H as [<- _]. reflexivity.
Qed.

Lemma traverse_keeps_skeleton (obj : Value) :
  forall s obj' s',
    traverse_and_translate env api_key obj s = Ret obj' s' ->
    erase_settings obj' = erase_settings obj.
Proof.
  induction obj as [|b|n|t|items IH|fields IH] using Value_ind;
    intros s obj' s'; simpl; unfold ret;
    try (intros H; apply Ret_inj in H as [<- _]; reflexivity).
  - unfold bind.
    destruct (mapM _ items s) as [items' s1| |] eqn:Hm; try discriminate.
    intros H. apply Ret_inj in H as [<- _]. simpl. f_equal.
    eapply mapM_map; [|exact Hm].
    eapply Forall_impl; [exact IH|]. intros x Hx s0 y s2. apply Hx.
  - unfold bind at 1.
    destruct (mapM _ fields s) as [fields' s1| |] eqn:Hm; try discriminate.
    intros H. apply Ret_inj in H as [<- _]. simpl. f_equal.
    eapply mapM_map; [|exact Hm].
    eapply Forall_impl; [exact IH|].
    intros [key value] Hv s0 [key' value'] s2. simpl in Hv.
    destruct (py_in key REPLACE_TARGET_KEYS && is_str value) eqn:E1.
    + unfold bind, ret. destruct (leaf env api_key _ s0); try discriminate.
      intros H. apply Ret_inj in H as [H _]. injection H as <- <-.
      apply andb_true_iff in E1 as [-> _]. reflexivity.
    + destruct (String.eqb key "enumDescriptions" && is_list value) eqn:E2.
      * unfold bind, ret.
        destruct (mapM _ (items_of value) s0) as [items' s3| |] eqn:Hi;
          try discriminate.
        intros H. apply Ret_inj in H as [H _]. injection H as <- <-.
        apply andb_true_iff in E2 as [E2 _]. rewrite E2.
        apply String.eqb_eq in E2. subst key. simpl.
        rewrite (enum_items_erased _ _ _ _ Hi). reflexivity.
      * unfold bind, ret.
        destruct (traverse_and_translate env api_key value s0)
          as [v1 s3| |] eqn:Ht; try discriminate.
        intros H. apply Ret_inj in H as [H _]. injection H as <- <-.
        destruct (traverse_keeps_kind env api_key _ _ _ _ Ht) as [-> ->].
        rewrite E1, E2, (Hv _ _ _ Ht). reflexivity.
Qed.

Lemma translate_in_object_keeps_skeleton (obj : Value) :
  forall s obj' s',
    translate_in_object env api_key obj s = Ret obj' s' ->
    erase_contributions obj' = erase_contributions obj.
Proof.
  induction obj as [|b|n|t|items IH|fields IH] using Value_ind;
    intros s obj' s'; simpl; unfold ret;
    try (intros H; apply Ret_inj in H as [<- _]; reflexivity).
  - unfold bind.
    destruct (mapM _ items s) as [items' s1| |] eqn:Hm; try discriminate.
    intros H. apply Ret_inj in H as [<- _]. simpl. f_equal.
    eapply mapM_map; [|exact Hm].
    eapply Forall_impl; [exact IH|]. intros x Hx s0 y s2. apply Hx.
  - unfold bind at 1.
    destruct (mapM _ fields s) as [fields' s1| |] eqn:Hm; try discriminate.
    intros H. apply Ret_inj in H as [<- _]. simpl. f_equal.
    eapply mapM_map; [|exact Hm].
    eapply Forall_impl; [exact IH|].
    intros [key value] Hv s0 [key' value'] s2. simpl in Hv.
    rewrite !contributions_leaf_keys.
    destruct (is_str value) eqn:Es; rewrite ?andb_true_r, ?andb_false_r.
    + destruct (String.eqb key "label") eqn:K1;
        [|destruct (String.eqb key "name") eqn:K2;
          [|destruct (String.eqb key "contents") eqn:K3;
            [|destruct (py_in key ["title"; "description"]) eqn:K4]]];
        simpl; unfold bind, ret;
        try (destruct (leaf env api_key _ s0); try discriminate;
             intros H; apply Ret_inj in H as [H _]; injection H as <- <-;
             rewrite ?contributions_leaf_keys, ?K1, ?K2, ?K3, ?K4; simpl;
             reflexivity).
      destruct (translate_in_object env api_key value s0)
        as [v1 s3| |] eqn:Ht; try discriminate.
      intros H. apply Ret_inj in H as [H _]. injection H as <- <-.
      rewrite ?contributions_leaf_keys, ?K1, ?K2, ?K3, ?K4. simpl.
      rewrite (Hv _ _ _ Ht). reflexivity.
    + destruct (String.eqb key "label"), (String.eqb key "name"),
        (String.eqb key "contents"), (py_in key ["title"; "description"]);
        simpl; unfold bind, ret;
        (destruct (translate_in_object env api_key value s0)
           as [v1 s3| |] eqn:Ht; try discriminate);
        intros H; apply Ret_inj in H as [H _]; injection H as <- <-;
        rewrite (translate_in_object_keeps_kind env api_key _ _ _ _ Ht), Es,
          andb_false_r, (Hv _ _ _ Ht); reflexivity.
Qed.

Lemma pass_keeps_skeleton (schema : Schema) (doc doc' : Value) (s s' : St) :
  translate_pass env api_key schema doc s = Ret doc' s' ->
  erase schema doc' = erase schema doc.
Proof.
  destruct schema; simpl;
    [apply traverse_keeps_skeleton|apply translate_in_object_keeps_skeleton].
Qed.

End Skeleton.

Lemma flat_map_map_length {A B} (g : A -> A) (h : A -> list B) (l : list A) :
  Forall (fun x => length (h (g x)) = length (h x)) l ->
  length (flat_map h (map g l)) = length (flat_map h l).
Proof.
  induction 1 as [|x r Hx _ IH]; simpl; [reflexivity|].
  rewrite !length_app. congruence.
Qed.

Lemma erase_enum_items_length (items : list Value) :
  length (flat_map enum_leaf (map erase_enum_item items))
  = length (flat_map enum_leaf items).
Proof.
  apply flat_map_map_length. apply Forall_forall. intros item _.
  destruct item; reflexivity.
Qed.

(** Blanking the leaves keeps their number. *)
Lemma erase_settings_leaves (d : Value) :
  length (settings_leaves (erase_settings d)) = length (settings_leaves d).
Proof.
  induction d as [|b|n|t|items IH|fields IH] using Value_ind;
    try reflexivity; simpl.
  - apply flat_map_map_length. exact IH.
  - apply flat_map_map_length. eapply Forall_impl; [exact IH|].
    intros [key value] Hv. simpl in Hv.
    destruct (py_in key REPLACE_TARGET_KEYS && is_str value) eqn:E1.
    + apply andb_true_iff in E1 as [-> _]. reflexivity.
    + destruct (String.eqb key "enumDescriptions" && is_list value) eqn:E2.
      * apply andb_true_iff in E2 as [E2 _]. rewrite E2.
        apply String.eqb_eq in E2. subst key. simpl.
        apply erase_enum_items_length.
      * destruct (erase_settings_kind value) as [-> ->].
        rewrite E1, E2. exact Hv.
Qed.

Lemma erase_contributions_leaves (d : Value) :
  length (contributions_leaves (erase_contributions d))
  = length (contributions_leaves d).
Proof.
  induction d as [|b|n|t|items IH|fields IH] using Value_ind;
    try reflexivity; simpl.
  - apply flat_map_map_length. exact IH.
  - apply flat_map_map_length. eapply Forall_impl; [exact IH|].
    intros [key value] Hv. simpl in Hv.
    destruct (py_in key ["label"; "name"; "contents"; "title"; "description"]
              && is_str value) eqn:E1.
    + apply andb_true_iff in E1 as [-> _]. reflexivity.
    + rewrite erase_contributions_kind, E1. exact Hv.
Qed.

Lemma flat_map_map_inj {A C} (g : A -> C) (h : A -> list string) (l1 : list A) :
  Forall (fun x1 => forall x2, g x1 = g x2 -> h x1 = h x2 -> x1 = x2) l1 ->
  (forall x1 x2, g x1 = g x2 -> length (h x1) = length (h x2)) ->
  forall l2, map g l1 = map g l2 -> flat_map h l1 = flat_map h l2 -> l1 = l2.
Proof.
  intros Hinj Hlen. induction Hinj as [|x1 r1 Hx _ IH]; intros [|x2 r2];
    simpl; try discriminate; [reflexivity|].
  intros Hg Hh. injection Hg as Hg Hr.
  apply app_inj_1 in Hh as [Hh Hrest]; [|apply Hlen; exact Hg].
  rewrite (Hx _ Hg Hh), (IH _ Hr Hrest). reflexivity.
Qed.

Lemma erase_enum_item_inj (x1 x2 : Value) :
  erase_enum_item x1 = erase_enum_item x2 -> enum_leaf x1 = enum_leaf x2 ->
  x1 = x2.
Proof.
  destruct x1, x2; simpl; intros He Hl; try discriminate; try assumption;
    congruence.
Qed.

(** A document is determined by what is left when its leaves are blanked
    out, together with its leaves. *)
Lemma erase_settings_inj (d1 : Value) :
  forall d2,
    erase_settings d1 = erase_settings d2 ->
    settings_leaves d1 = settings_leaves d2 -> d1 = d2.
Proof.
  induction d1 as [|b|n|t|items IH|fields IH] using Value_ind;
    intros d2; destruct d2 as [|b2|n2|t2|items2|fields2]; simpl;
    intros He Hl; try discriminate; try assumption.
  - injection He as He. f_equal.
    apply (flat_map_map_inj erase_settings settings_leaves items IH);
      [|assumption|assumption].
    intros x1 x2 Hx. rewrite <- (erase_settings_leaves x1), Hx.
    apply erase_settings_leaves.
  - injection He as He. f_equal.
    match type of He with
    | map ?g fields = _ =>
        match type of Hl with
        | flat_map ?h fields = _ =>
            assert (Hkind : forall kv : string * Value,
                      fst (g kv) = fst kv /\
                      is_str (snd (g kv)) = is_str (snd kv) /\
                      is_list (snd (g kv)) = is_list (snd kv));
            [|apply (flat_map_map_inj g h fields); [| |assumption|assumption]]
        end
    end.
    + intros [key value]. simpl.
      destruct (py_in key REPLACE_TARGET_KEYS && is_str value) eqn:E1.
      * apply andb_true_iff in E1 as [_ E1].
        destruct value; try discriminate E1; simpl; auto.
      * destruct (String.eqb key "enumDescriptions" && is_list value) eqn:E2.
        -- apply andb_true_iff in E2 as [_ E2].
           destruct value; try discriminate E2; simpl; auto.
        -- simpl. destruct (erase_settings_kind value) as [-> ->]. auto.
    + eapply Forall_impl; [exact IH|].
      intros [key value] Hv [key2 value2] Hg Hh. simpl in Hv.
      pose proof (Hkind (key, value)) as (Hk1 & Hs1 & Hl1).
      pose proof (Hkind (key2, value2)) as (Hk2 & Hs2 & Hl2).
      rewrite Hg in Hk1, Hs1, Hl1. simpl in *.
      assert (key2 = key) by congruence. subst key2.
      assert (Hs : is_str value2 = is_str value) by congruence.
      assert (Hli : is_list value2 = is_list value) by congruence.
      rewrite Hs, Hli in Hg, Hh.
      destruct (py_in key REPLACE_TARGET_KEYS && is_str value) eqn:E1.
      * apply andb_true_iff in E1 as [_ E1]. rewrite E1 in Hs.
        destruct value, value2; try discriminate. simpl in Hh. congruence.
      * destruct (String.eqb key "enumDescriptions" && is_list value) eqn:E2.
        -- apply andb_true_iff in E2 as [_ E2]. rewrite E2 in Hli.
           destruct value as [| | | |l1|], value2 as [| | | |l2|];
             try discriminate. simpl in *.
           injection Hg as Hg. do 2 f_equal.
           apply (flat_map_map_inj erase_enum_item enum_leaf l1);
             [| |assumption|assumption].
           ++ apply Forall_forall. intros x1 _ x2. apply erase_enum_item_inj.
           ++ intros x1 x2 Hx. destruct x1, x2; simpl in *;
                try discriminate; reflexivity.
        -- injection Hg as Hg. f_equal. apply Hv; assumption.
    + intros [k1 v1] [k2 v2] Hg.
      pose proof (Hkind (k1, v1)) as (Hk1 & Hs1 & Hl1).
      pose proof (Hkind (k2, v2)) as (Hk2 & Hs2 & Hl2).
      rewrite Hg in Hk1, Hs1, Hl1. simpl in *.
      assert (k2 = k1) by congruence. subst k2.
      assert (Hs : is_str v2 = is_str v1) by congruence.
      assert (Hli : is_list v2 = is_list v1) by congruence.
      rewrite Hs, Hli in Hg |- *.
      destruct (py_in k1 REPLACE_TARGET_KEYS && is_str v1); [reflexivity|].
      destruct (String.eqb k1 "enumDescriptions" && is_list v1).
      * injection Hg as Hg.
        rewrite <- (erase_enum_items_length (items_of v1)), Hg.
        apply erase_enum_items_length.
      * injection Hg as Hg.
        rewrite <- (erase_settings_leaves v1), Hg.
        apply erase_settings_leaves.
Qed.

Lemma erase_contributions_inj (d1 : Value) :
  forall d2,
    erase_contributions d1 = erase_contributions d2 ->
    contributions_leaves d1 = contributions_leaves d2 -> d1 = d2.
Proof.
  induction d1 as [|b|n|t|items IH|fields IH] using Value_ind;
    intros d2; destruct d2 as [|b2|n2|t2|items2|fields2]; simpl;
    intros He Hl; try discriminate; try assumption.
  - injection He as He. f_equal.
    apply (flat_map_map_inj erase_contributions contributions_leaves items IH);
      [|assumption|assumption].
    intros x1 x2 Hx. rewrite <- (erase_contributions_leaves x1), Hx.
    apply erase_contributions_leaves.
  - injection He as He. f_equal.
    match type of He with
    | map ?g fields = _ =>
        match type of Hl with
        | flat_map ?h fields = _ =>
            assert (Hkind : forall kv : string * Value,
                      fst (g kv) = fst kv /\
                      is_str (snd (g kv)) = is_str (snd kv));
            [|apply (flat_map_map_inj g h fields); [| |assumption|assumption]]
        end
    end.
    + intros [key value]. simpl.
      destruct (py_in key ["label"; "name"; "contents"; "title"; "description"]
                && is_str value) eqn:E1.
      * apply andb_true_iff in E1 as [_ E1].
        destruct value; try discriminate E1; simpl; auto.
      * simpl. rewrite erase_contributions_kind. auto.
    + eapply Forall_impl; [exact IH|].
      intros [key value] Hv [key2 value2] Hg Hh. simpl in Hv.
      pose proof (Hkind (key, value)) as (Hk1 & Hs1).
      pose proof (Hkind (key2, value2)) as (Hk2 & Hs2).
      rewrite Hg in Hk1, Hs1. simpl in *.
      assert (key2 = key) by congruence. subst key2.
      assert (Hs : is_str value2 = is_str value) by congruence.
      rewrite Hs in Hg, Hh.
      destruct (py_in key ["label"; "name"; "contents"; "title"; "description"]
                && is_str value) eqn:E1.
      * apply andb_true_iff in E1 as [_ E1]. rewrite E1 in Hs.
        destruct value, value2; try discriminate. simpl in Hh. congruence.
      * injection Hg as Hg. f_equal. apply Hv; assumption.
    + intros [k1 v1] [k2 v2] Hg.
      pose proof (Hkind (k1, v1)) as (Hk1 & Hs1).
      pose proof (Hkind (k2, v2)) as (Hk2 & Hs2).
      rewrite Hg in Hk1, Hs1. simpl in *.
      assert (k2 = k1) by congruence. subst k2.
      assert (Hs : is_str v2 = is_str v1) by congruence.
      rewrite Hs in Hg |- *.
      destruct (py_in k1 ["label"; "name"; "contents"; "title"; "description"]
                && is_str v1); [reflexivity|].
      injection Hg as Hg.
      rewrite <- (erase_contributions_leaves v1), Hg.
      apply erase_contributions_leaves.
Qed.

Lemma erase_inj (schema : Schema) (d1 d2 : Value) :
  erase schema d1 = erase schema d2 ->
  leaves_of schema d1 = leaves_of schema d2 -> d1 = d2.
Proof.
  destruct schema; [apply erase_settings_inj|apply erase_contributions_inj].
Qed.

Lemma mapM_length {A B} (f : A -> M B) (l : list A) :
  forall s ys s', mapM f l s = Ret ys s' -> length ys = length l.
Proof.
  induction l as [|x r IH]; intros s ys s'; simpl; unfold ret, bind.
  - intros H. apply Ret_inj in H as [<- _]. reflexivity.
  - destruct (f x s) as [y s1| |]; try discriminate.
    destruct (mapM f r s1) as [ys' s2| |] eqn:Hr; try discriminate.
    intros H. apply Ret_inj in H as [<- _]. simpl. f_equal.
    eapply IH. exact Hr.
Qed.

Lemma py_sum_map {A} (f : A -> nat) (g : A -> A) (l : list A) :
  Forall (fun x => f (g x) = f x) l -> py_sum f (map g l) = py_sum f l.
Proof.
  induction 1 as [|x r Hx _ IH]; simpl; [reflexivity|]. congruence.
Qed.

(** The count pass of the contributions rule does not look at the text of
    a leaf. *)
Lemma count_contributions_erased (d : Value) :
  count_contributions_translatable_items (erase_contributions d)
  = count_contributions_translatable_items d.
Proof.
  induction d as [|b|n|t|items IH|fields IH] using Value_ind;
    try reflexivity; simpl.
  - apply py_sum_map. exact IH.
  - apply py_sum_map. eapply Forall_impl; [exact IH|].
    intros [key value] Hv. simpl in Hv.
    rewrite contributions_leaf_keys.
    destruct (is_str value) eqn:Es; rewrite ?andb_true_r, ?andb_false_r.
    + destruct value; try discriminate Es.
      destruct (String.eqb key "label") eqn:K1,
        (String.eqb key "name") eqn:K2,
        (String.eqb key "contents") eqn:K3,
        (py_in key ["title"; "description"]) eqn:K4;
        simpl; rewrite ?K1, ?K2, ?K3, ?K4; reflexivity.
    + simpl. rewrite erase_contributions_kind, Es, !andb_false_r.
      destruct (py_in key ["title"; "description"]); exact Hv.
Qed.

(** X11.  A translate pass changes nothing but the text of the leaves of
    its rule.  The document it returns has the keys, the order, the numbers,
    booleans, nulls and all other strings of the document it was given, and
    as many leaves at the same places; it is the only document that agrees
    with the given one outside the leaves and has the results of
    [translate_text] as its leaves. *)
Theorem pass_changes_only_leaves (env : Env) (api_key : string)
    (schema : Schema) (doc doc' : Value) (s s' : St) :
  translate_pass env api_key schema doc s = Ret doc' s' ->
  erase schema doc' = erase schema doc /\
  length (leaves_of schema doc') = length (leaves_of schema doc) /\
  count_pass schema doc' = count_pass schema doc /\
  forall d,
    erase schema d = erase schema doc ->
    leaves_of schema d = leaves_of schema doc' -> d = doc'.
Proof.
  intros Hpass.
  pose proof (pass_keeps_skeleton env api_key schema doc doc' s s' Hpass) as He.
  pose proof (pass_returns env api_key schema doc doc' s s' Hpass) as Hseq.
  split; [exact He|]. split; [eapply mapM_length; exact Hseq|]. split.
  - destruct schema; simpl in *.
    + rewrite !count_translatable_items_leaves.
      eapply mapM_length. exact Hseq.
    + rewrite <- (count_contributions_erased doc'), He.
      apply count_contributions_erased.
  - intros d Hd Hl. apply (erase_inj schema); congruence.
Qed.

Lemma pass_changes_only_leaves_witness :
  let doc := VObj [("title", VStr "Hello"); ("version", VNum "1.0");
                   ("other", VStr "kept");
                   ("enumDescriptions", VArr [VStr "Low"; VNull])] in
  let doc' := VObj [("title", VStr "<Hello>"); ("version", VNum "1.0");
                    ("other", VStr "kept");
                    ("enumDescriptions", VArr [VStr "<Low>"; VNull])] in
  let s' := final_state (translate_pass echo_env "key" Settings doc (loaded None)) in
  translate_pass echo_env "key" Settings doc (loaded None) = Ret doc' s' /\
  erase Settings doc' = erase Settings doc /\
  length (leaves_of Settings doc') = length (leaves_of Settings doc) /\
  count_pass Settings doc' = count_pass Settings doc.
Proof.
  intros doc doc' s'.
  assert (H : translate_pass echo_env "key" Settings doc (loaded None)
              = Ret doc' s') by (vm_compute; reflexivity).
  split; [exact H|].
  destruct (pass_changes_only_leaves echo_env "key" Settings doc doc'
              (loaded None) s' H) as (He & Hl & Hc & _).
  auto.
Defined.

Lemma leafless_pass_returns (env : Env) (api_key : string)
    (schema : Schema) (doc : Value) (s : St) :
  leaves_of schema doc = [] ->
  translate_pass env api_key schema doc s = Ret doc s.
Proof.
  intros Hnone.
  pose proof (pass_leafwise env api_key schema doc s) as Hwise.
  rewrite Hnone in Hwise. simpl in Hwise. unfold ret in Hwise.
  destruct (translate_pass env api_key schema doc s) as [doc' s'| |] eqn:Hpass;
    simpl in Hwise; try discriminate.
  apply Ret_inj in Hwise as [Hl <-].
  f_equal. symmetry. apply (erase_inj schema); [|congruence].
  symmetry. eapply pass_keeps_skeleton. exact Hpass.
Qed.

(** X12.  A document with no leaf is returned as it is, and the pass
    touches nothing: no method of the dictionary or of the progress bar is
    called, no request is sent and no signal is looked for.  For the
    settings rule these are the documents the count pass counts as 0. *)
Theorem leafless_document_untouched (env : Env) (api_key : string)
    (schema : Schema) (doc : Value) (s : St) :
  leaves_of schema doc = [] ->
  translate_pass env api_key schema doc s = Ret doc s /\
  (schema = Settings -> count_translatable_items doc = 0).
Proof.
  intros Hnone. split.
  - apply leafless_pass_returns. exact Hnone.
  - intros ->. simpl in Hnone.
    rewrite count_translatable_items_leaves, Hnone. reflexivity.
Qed.

Lemma leafless_document_untouched_witness :
  let doc := VObj [("name", VStr "gitlens"); ("version", VNum "1");
                   ("enumDescriptions", VArr [VObj [("title", VStr "x")]])] in
  translate_pass interrupted_env "key" Settings doc (loaded None)
  = Ret doc (loaded None) /\
  (Settings = Settings -> count_translatable_items doc = 0).
Proof.
  intros doc. apply leafless_document_untouched. reflexivity.
Defined.

Lemma contributions_leaves_length (doc : Value) :
  length (contributions_leaves doc)
  = count_contributions_translatable_items doc + title_strings doc.
Proof.
  assert (Hsum : forall (A : Type) (h : A -> list string) (f1 f2 : A -> nat)
                        (l : list A),
            Forall (fun x => length (h x) = f1 x + f2 x) l ->
            length (flat_map h l) = py_sum f1 l + py_sum f2 l).
  { intros A h f1 f2 l. induction 1 as [|x r Hx _ IH]; simpl; [reflexivity|].
    rewrite length_app. lia. }
  induction doc as [|b|n|t|items IH|fields IH] using Value_ind;
    try reflexivity; simpl.
  - apply Hsum. exact IH.
  - apply Hsum. eapply Forall_impl; [exact IH|].
    intros [key value] Hv. simpl in Hv.
    rewrite contributions_leaf_keys.
    assert (Hthree : py_in key ["label"; "name"; "contents"]
                     = String.eqb key "label" || String.eqb key "name"
                       || String.eqb key "contents").
    { unfold py_in. simpl.
      destruct (String.eqb key "label"), (String.eqb key "name"),
        (String.eqb key "contents"); reflexivity. }
    rewrite Hthree.
    destruct (is_str value) eqn:Es; rewrite ?andb_true_r, ?andb_false_r.
    + destruct value; try discriminate Es.
      destruct (String.eqb key "label"), (String.eqb key "name"),
        (String.eqb key "contents"), (py_in key ["title"; "description"]);
        reflexivity.
    + simpl. destruct (py_in key ["title"; "description"]); exact Hv.
Qed.


(** ** A pass over a warm cache *)

Section Warm.
Variable env : Env.
Variable api_key : string.
Hypothesis quiet : forall c, signal env c = false.

Lemma leaf_from_cache (text : string) (s : St) :
  is_blank text = true \/ is_Some (dictionary (dict s) !! text) ->
  exists s',
    leaf env api_key text s = Ret (from_cache (dictionary (dict s)) text) s' /\
    dict s' = dict s /\ dict_file s' = dict_file s /\
    count_events is_post s' = count_events is_post s.
Proof.
  intros Hwarm. unfold from_cache, count_events.
  leaf_cases env api_key text s.
  - rewrite quiet in Hsig. discriminate.
  - eexists. repeat split.
  - eexists. repeat split.
  - exfalso. destruct Hwarm as [H|[r H]]; discriminate.
  - exfalso. destruct Hwarm as [H|[r H]]; discriminate.
  - exfalso. destruct Hwarm as [H|[r H]]; discriminate.
  - exfalso. destruct Hwarm as [H|[r H]]; discriminate.
  - exfalso. destruct Hwarm as [H|[r H]]; discriminate.
  - exfalso. destruct Hwarm as [H|[r H]]; discriminate.
Qed.

Lemma leaves_from_cache (texts : list string) :
  forall s,
    Forall (fun t => is_blank t = true \/ is_Some (dictionary (dict s) !! t))
      texts ->
    exists s',
      mapM (leaf env api_key) texts s
      = Ret (map (from_cache (dictionary (dict s))) texts) s' /\
      dict s' = dict s /\ dict_file s' = dict_file s /\
      count_events is_post s' = count_events is_post s.
Proof.
  induction texts as [|t r IH]; intros s Hwarm; simpl.
  - exists s. unfold ret. auto.
  - apply Forall_cons in Hwarm as [Ht Hr].
    destruct (leaf_from_cache t s Ht) as (s1 & Hleaf & Hd & Hf & Hp).
    rewrite <- Hd in Hr. destruct (IH s1 Hr) as (s' & Hrest & Hd' & Hf' & Hp').
    exists s'. unfold bind, ret. rewrite Hleaf, Hrest, Hd.
    repeat split; congruence.
Qed.

End Warm.

(** A pass over a document whose leaves are all blank or cached. *)
Lemma warm_pass (env : Env) (api_key : string) (schema : Schema)
    (doc : Value) (s : St) :
  (forall c, signal env c = false) ->
  Forall (fun t => is_blank t = true \/ is_Some (dictionary (dict s) !! t))
    (leaves_of schema doc) ->
  exists doc' s',
    run_pass env api_key schema doc s = Ret doc' s' /\
    leaves_of schema doc'
    = map (from_cache (dictionary (dict s))) (leaves_of schema doc) /\
    erase schema doc' = erase schema doc /\
    dict s' = dict s /\ dict_file s' = dict_file s /\
    count_events is_post s' = count_events is_post s.
Proof.
  intros Hquiet Hwarm.
  destruct (leaves_from_cache env api_key Hquiet (leaves_of schema doc)
              (fresh_bar (count_pass schema doc) s))
    as (s' & Hseq & Hd & Hf & Hp).
  { exact Hwarm. }
  rewrite run_pass_eq.
  pose proof (pass_leafwise env api_key schema doc
                (fresh_bar (count_pass schema doc) s)) as Hwise.
  rewrite Hseq in Hwise.
  destruct (translate_pass env api_key schema doc _) as [d s1| |] eqn:Hpass;
    simpl in Hwise; try discriminate.
  apply Ret_inj in Hwise as [Hl <-].
  exists d, s1. split; [reflexivity|].
  split; [exact Hl|].
  split; [eapply pass_keeps_skeleton; exact Hpass|].
  auto.
Qed.

(** X14.  When no signal arrives and the dictionary has an entry for every
    leaf that is not blank, a pass returns the document with each of those
    leaves replaced by its entry and everything else as it was; it sends no
    request and leaves the dictionary and the cache file as they were.  The
    result does not depend on the provider or on the key: any other such
    pass over the same document with the same dictionary returns the same
    document. *)
Theorem warm_pass_applies_cache (env : Env) (api_key : string)
    (schema : Schema) (doc : Value) (s : St) :
  (forall c, signal env c = false) ->
  Forall (fun t => is_blank t = true \/ is_Some (dictionary (dict s) !! t))
    (leaves_of schema doc) ->
  exists doc' s',
    run_pass env api_key schema doc s = Ret doc' s' /\
    leaves_of schema doc'
    = map (from_cache (dictionary (dict s))) (leaves_of schema doc) /\
    erase schema doc' = erase schema doc /\
    dict s' = dict s /\ dict_file s' = dict_file s /\
    count_events is_post s' = count_events is_post s /\
    forall env2 api_key2 s2,
      (forall c, signal env2 c = false) ->
      dictionary (dict s2) = dictionary (dict s) ->
      exists s2', run_pass env2 api_key2 schema doc s2 = Ret doc' s2'.
Proof.
  intros Hquiet Hwarm.
  destruct (warm_pass env api_key schema doc s Hquiet Hwarm)
    as (doc' & s' & Hpass & Hl & He & Hd & Hf & Hp).
  exists doc', s'. repeat (split; [assumption|]).
  intros env2 key2 s2 Hquiet2 Hsame.
  destruct (warm_pass env2 key2 schema doc s2 Hquiet2)
    as (d & s2' & Hpass2 & Hl2 & He2 & _).
  { rewrite Hsame. exact Hwarm. }
  rewrite Hsame in Hl2.
  exists s2'. rewrite Hpass2. f_equal.
  apply (erase_inj schema); congruence.
Qed.

Lemma warm_pass_applies_cache_witness :
  let doc := VObj [("title", VStr "Hello"); ("label", VStr " ");
                   ("description", VStr "Hello")] in
  let s := loaded (Some {[ "Hello" := "Bonjour" ]}) in
  exists doc' s',
    run_pass flaky_env "key" Settings doc s = Ret doc' s' /\
    leaves_of Settings doc' = ["Bonjour"; " "; "Bonjour"] /\
    dict s' = dict s /\ dict_file s' = dict_file s /\
    count_events is_post s' = count_events is_post s.
Proof.
  intros doc s.
  destruct (warm_pass_applies_cache flaky_env "key" Settings doc s)
    as (doc' & s' & Hpass & Hl & _ & Hd & Hf & Hp & _).
  - reflexivity.
  - constructor; [right; eexists; reflexivity|].
    constructor; [left; reflexivity|].
    constructor; [right; eexists; reflexivity|]. constructor.
  - exists doc', s'. split; [exact Hpass|]. split; [exact Hl|]. auto.
Defined.

(** ** The orchestrator *)

Lemma run_pass_completes (env : Env) (api_key : string) (schema : Schema)
    (data : Value) (s : St) :
  no_interrupt env ->
  exists data' s', run_pass env api_key schema data s = Ret data' s'.
Proof.
  intros Hquiet. rewrite run_pass_eq.
  destruct (leaves_without_interrupt env api_key (leaves_of schema data) Hquiet
              (fresh_bar (count_pass schema data) s))
    as (outs & s' & Hseq & _).
  pose proof (pass_leafwise env api_key schema data
                (fresh_bar (count_pass schema data) s)) as Hwise.
  rewrite Hseq in Hwise.
  destruct (translate_pass env api_key schema data _) as [d s1| |];
    simpl in Hwise; try discriminate.
  eauto.
Qed.

Section OrchestratorExtras.
Context {Bytes : Type}.
Variable json_load : Bytes -> option Value.
Variable json_dump : nat -> Value -> Bytes.
Variable env : Env.
Variable api_key : string.

(** X15.  [translate_contributions_file] leaves the files and the state as
    they are, and calls nothing, in two cases: the file is missing (it
    returns [False]), or the count pass finds 0 items (it returns [True]).
    In the second case the strings under [title] and [description], which
    the walk would have translated, stay untranslated. *)
Theorem contributions_file_skipped (file_path : string)
    (fs : gmap string Bytes) (s : St) :
  (fs !! file_path = None ->
   translate_contributions_file json_load json_dump env file_path api_key fs s
   = (fs, Ret false s)) /\
  (forall bytes data,
     fs !! file_path = Some bytes ->
     json_load bytes = Some data ->
     count_contributions_translatable_items data = 0 ->
     translate_contributions_file json_load json_dump env file_path api_key fs s
     = (fs, Ret true s) /\
     length (contributions_leaves data) = title_strings data).
Proof.
  split.
  - intros Hnone. unfold translate_contributions_file. rewrite Hnone.
    reflexivity.
  - intros bytes data Hfile Hload Hzero.
    rewrite (translate_contributions_file_eq _ _ _ _ _ _ _ _ _ Hfile Hload).
    rewrite Hzero, contributions_leaves_length, Hzero. split; reflexivity.
Qed.

(** X16.  When nothing interrupts, [translate_contributions_file] on a file
    that parses and has at least one counted item runs the pass to its end
    whatever the provider answers, writes the returned tree to the same path
    with indentation 4, touches no other file and returns [True]. *)
Theorem contributions_file_written (file_path : string)
    (fs : gmap string Bytes) (s : St) (bytes : Bytes) (data : Value) :
  no_interrupt env ->
  fs !! file_path = Some bytes ->
  json_load bytes = Some data ->
  count_contributions_translatable_items data <> 0 ->
  exists data' s',
    run_pass env api_key Contributions data s = Ret data' s' /\
    translate_contributions_file json_load json_dump env file_path api_key fs s
    = (<[file_path := json_dump 4 data']> fs, Ret true s') /\
    erase Contributions data' = erase Contributions data.
Proof.
  intros Hquiet Hfile Hload Hcount.
  destruct (run_pass_completes env api_key Contributions data s Hquiet)
    as (data' & s' & Hpass).
  exists data', s'. split; [exact Hpass|]. split.
  - rewrite (translate_contributions_file_eq _ _ _ _ _ _ _ _ _ Hfile Hload).
    apply Nat.eqb_neq in Hcount. rewrite Hcount, Hpass. reflexivity.
  - rewrite run_pass_eq in Hpass. eapply pass_keeps_skeleton. exact Hpass.
Qed.

End OrchestratorExtras.

Lemma flaky_env_never_interrupts : no_interrupt flaky_env.
Proof.
  split; [reflexivity|]. intros c k t. simpl.
  destruct (Nat.leb c 1); discriminate.
Qed.

Lemma contributions_file_skipped_witness :
  let data := VObj [("title", VStr "Hello"); ("id", VStr "gitlens.x")] in
  let fs : gmap string TreeFiles.Bytes := {[ CONTRIBUTIONS_JSON_PATH := (4, data) ]} in
  translate_contributions_file TreeFiles.json_load TreeFiles.json_dump echo_env
    CONTRIBUTIONS_JSON_PATH "key" fs (loaded None) = (fs, Ret true (loaded None)) /\
  length (contributions_leaves data) = title_strings data /\
  translate_contributions_file TreeFiles.json_load TreeFiles.json_dump echo_env
    PACKAGE_JSON_PATH "key" fs (loaded None) = (fs, Ret false (loaded None)).
Proof.
  intros data fs.
  destruct (proj2 (contributions_file_skipped TreeFiles.json_load
                     TreeFiles.json_dump echo_env "key" CONTRIBUTIONS_JSON_PATH
                     fs (loaded None)) (4, data) data eq_refl eq_refl eq_refl)
    as [Hrun Hlen].
  split; [exact Hrun|]. split; [exact Hlen|].
  apply (proj1 (contributions_file_skipped TreeFiles.json_load
                  TreeFiles.json_dump echo_env "key" PACKAGE_JSON_PATH
                  fs (loaded None))).
  reflexivity.
Defined.

Lemma contributions_file_written_witness :
  let data := VObj [("label", VStr "Hi"); ("title", VStr "Hello")] in
  let fs : gmap string TreeFiles.Bytes := {[ CONTRIBUTIONS_JSON_PATH := (2, data) ]} in
  exists data' s',
    run_pass flaky_env "key" Contributions data (loaded None) = Ret data' s' /\
    translate_contributions_file TreeFiles.json_load TreeFiles.json_dump flaky_env
      CONTRIBUTIONS_JSON_PATH "key" fs (loaded None)
    = (<[CONTRIBUTIONS_JSON_PATH := (4, data')]> fs, Ret true s') /\
    erase Contributions data' = erase Contributions data.
Proof.
  intros data fs.
  apply (contributions_file_written TreeFiles.json_load TreeFiles.json_dump
           flaky_env "key" CONTRIBUTIONS_JSON_PATH fs (loaded None) (2, data) data
           flaky_env_never_interrupts eq_refl eq_refl).
  discriminate.
Defined.

(** ** The key and the log *)

Lemma get_api_key_named (args : Cli.Namespace) (environ : gmap string string)
    (name : string) :
  Cli.given (Cli.api_key args) = false ->
  Cli.env_key args = Some name ->
  name <> "" ->
  Cli.get_api_key args environ
  = Cli.environ_get environ name (Cli.environ_get environ "DEEPSEEK_API_KEY" "").
Proof.
  intros Hno Hn Hne. unfold Cli.get_api_key. rewrite Hno, Hn. simpl.
  destruct name; [congruence|reflexivity].
Qed.

(** X20.  Where the key comes from.  A non-empty [--api-key] is returned
    whatever the environment holds.  Otherwise, with a non-empty [--key
    NAME], the value of the variable [NAME] is returned when it is set, as
    it is, and the value of [DEEPSEEK_API_KEY] (or the empty string) when it
    is not.  With neither option, or with both empty, the value of
    [DEEPSEEK_API_KEY] or the empty string is returned. *)
Theorem get_api_key_precedence (args : Cli.Namespace)
    (environ : gmap string string) :
  (forall key, Cli.api_key args = Some key -> key <> "" ->
               Cli.get_api_key args environ = key) /\
  (Cli.given (Cli.api_key args) = false ->
   forall name, Cli.env_key args = Some name -> name <> "" ->
     (forall value, environ !! name = Some value ->
                    Cli.get_api_key args environ = value) /\
     (environ !! name = None ->
      Cli.get_api_key args environ
      = Cli.environ_get environ "DEEPSEEK_API_KEY" "")) /\
  (Cli.given (Cli.api_key args) = false ->
   Cli.given (Cli.env_key args) = false ->
   Cli.get_api_key args environ = Cli.environ_get environ "DEEPSEEK_API_KEY" "").
Proof.
  unfold Cli.get_api_key. split; [|split].
  - intros key Hk Hne. rewrite Hk. simpl.
    destruct key; [congruence|reflexivity].
  - intros Hno name Hn Hne.
    fold (Cli.get_api_key args environ).
    rewrite (get_api_key_named args environ name Hno Hn Hne).
    unfold Cli.environ_get at 1 3.
    split; [intros value ->; reflexivity|intros ->; reflexivity].
  - intros Hno Hno'. rewrite Hno, Hno'. reflexivity.
Qed.

Lemma get_api_key_precedence_witness :
  let environ : gmap string string :=
    <[ "MY_KEY" := "from-my-key" ]> {[ "DEEPSEEK_API_KEY" := "default-key" ]} in
  Cli.get_api_key {| Cli.api_key := Some "explicit"; Cli.env_key := Some "MY_KEY" |}
    environ = "explicit" /\
  Cli.get_api_key {| Cli.api_key := Some ""; Cli.env_key := Some "MY_KEY" |}
    environ = "from-my-key" /\
  Cli.get_api_key {| Cli.api_key := None; Cli.env_key := Some "OTHER" |}
    environ = Cli.environ_get environ "DEEPSEEK_API_KEY" "" /\
  Cli.get_api_key {| Cli.api_key := None; Cli.env_key := None |}
    environ = Cli.environ_get environ "DEEPSEEK_API_KEY" "".
Proof.
  intros environ. split; [|split; [|split]].
  - apply get_api_key_precedence; [reflexivity|discriminate].
  - apply (proj1 (proj2 (get_api_key_precedence
                           {| Cli.api_key := Some ""; Cli.env_key := Some "MY_KEY" |}
                           environ)) eq_refl "MY_KEY" eq_refl);
      [discriminate|reflexivity].
  - apply (proj1 (proj2 (get_api_key_precedence
                           {| Cli.api_key := None; Cli.env_key := Some "OTHER" |}
                           environ)) eq_refl "OTHER" eq_refl);
      [discriminate|reflexivity].
  - apply get_api_key_precedence; reflexivity.
Defined.

(** X21.  A variable named by [--key] that is set to the empty string hides
    the default: [get_api_key] returns the empty string although
    [DEEPSEEK_API_KEY] holds a key.  With the same variable not set at all,
    the key of [DEEPSEEK_API_KEY] is returned. *)
Theorem empty_named_variable_hides_default (args : Cli.Namespace)
    (environ : gmap string string) (name key : string) :
  Cli.given (Cli.api_key args) = false ->
  Cli.env_key args = Some name ->
  name <> "" ->
  name <> "DEEPSEEK_API_KEY" ->
  environ !! "DEEPSEEK_API_KEY" = Some key ->
  Cli.get_api_key args (<[name := ""]> environ) = "" /\
  Cli.get_api_key args (delete name environ) = key.
Proof.
  intros Hno Hn Hne Hdefault Hkey.
  rewrite !(get_api_key_named args _ name Hno Hn Hne).
  unfold Cli.environ_get.
  rewrite lookup_insert_eq, lookup_delete_eq.
  rewrite lookup_delete_ne by congruence.
  rewrite Hkey. split; reflexivity.
Qed.

Lemma empty_named_variable_hides_default_witness :
  let environ : gmap string string := {[ "DEEPSEEK_API_KEY" := "default-key" ]} in
  let args := {| Cli.api_key := None; Cli.env_key := Some "MY_KEY" |} in
  Cli.get_api_key args (<[ "MY_KEY" := "" ]> environ) = "" /\
  Cli.get_api_key args (delete "MY_KEY" environ) = "default-key".
Proof.
  intros environ args.
  apply (empty_named_variable_hides_default args environ "MY_KEY" "default-key");
    [reflexivity|reflexivity|discriminate|discriminate|reflexivity].
Defined.

(** X22.  Every call of [log], [log_error] and [log_warning] prints exactly
    one line that carries the message as given; which prefix it gets
    depends on [GITHUB_ACTIONS] alone.  [VERBOSE] changes nothing: [log]
    prints also when it is off. *)
Theorem log_ignores_verbose (flags flags' : Log.Flags) (msg : string) :
  Log.GITHUB_ACTIONS flags = Log.GITHUB_ACTIONS flags' ->
  Log.log flags msg = Log.log flags' msg /\
  Log.log flags msg
  = [(if Log.GITHUB_ACTIONS flags then Log.InfoAnnotation else Log.Plain, msg)] /\
  Log.log_error flags msg
  = [(if Log.GITHUB_ACTIONS flags then Log.ErrorAnnotation else Log.ErrorLabel, msg)] /\
  Log.log_warning flags msg
  = [(if Log.GITHUB_ACTIONS flags then Log.WarningAnnotation else Log.WarningLabel,
      msg)].
Proof.
  intros Hga. unfold Log.log, Log.log_error, Log.log_warning. rewrite <- Hga.
  destruct (Log.GITHUB_ACTIONS flags); simpl; rewrite ?orb_true_r; auto.
Qed.

Lemma log_ignores_verbose_witness :
  Log.log {| Log.GITHUB_ACTIONS := false; Log.VERBOSE := false |} "starting"
  = Log.log {| Log.GITHUB_ACTIONS := false; Log.VERBOSE := true |} "starting" /\
  Log.log {| Log.GITHUB_ACTIONS := false; Log.VERBOSE := false |} "starting"
  = [(Log.Plain, "starting")].
Proof.
  destruct (log_ignores_verbose
              {| Log.GITHUB_ACTIONS := false; Log.VERBOSE := false |}
              {| Log.GITHUB_ACTIONS := false; Log.VERBOSE := true |}
              "starting" eq_refl) as (H1 & H2 & _).
  split; assumption.
Defined.

(** ** Passes, once more *)

Section PassAccounts.
Variable env : Env.
Variable api_key : string.

Lemma leaf_progress (text o : string) (s s' : St) :
  leaf env api_key text s = Ret o s' ->
  total (bar s') = total (bar s) /\
  current (bar s') = current (bar s) + (if is_blank text then 0 else 1).
Proof.
  leaf_cases env api_key text s; intros H; try discriminate;
    apply Ret_inj in H as [_ <-]; simpl; split; lia.
Qed.

Lemma leaves_progress (texts : list string) :
  forall s outs s',
    mapM (leaf env api_key) texts s = Ret outs s' ->
    total (bar s') = total (bar s) /\
    current (bar s') + blanks texts = current (bar s) + length texts.
Proof.
  induction texts as [|t r IH]; intros s outs s'; simpl; unfold ret, bind.
  - intros H. apply Ret_inj in H as [_ <-]. split; reflexivity.
  - destruct (leaf env api_key t s) as [o s1| |] eqn:Hleaf; try discriminate.
    destruct (mapM (leaf env api_key) r s1) as [os s2| |] eqn:Hrest;
      try discriminate.
    intros H. apply Ret_inj in H as [_ <-].
    destruct (leaf_progress _ _ _ _ Hleaf) as [Ht Hc].
    destruct (IH _ _ _ Hrest) as [Ht' Hc'].
    unfold blanks in *. simpl. split; [congruence|].
    destruct (is_blank t); lia.
Qed.

(** A call that returns has resolved its leaf or logged one failure. *)
Lemma leaf_resolved_or_failed (text o : string) (s s' : St) :
  leaf env api_key text s = Ret o s' ->
  (resolved (dictionary (dict s')) (text, o) = true /\
   count_events is_log_error s' = count_events is_log_error s)
  \/ count_events is_log_error s' = S (count_events is_log_error s).
Proof.
  unfold count_events, resolved.
  leaf_cases env api_key text s; intros H; try discriminate;
    apply Ret_inj in H as [<- <-]; simpl; rewrite ?Hblank;
    try (right; reflexivity); left; (split; [|reflexivity]);
    apply bool_decide_eq_true_2; try reflexivity; try assumption.
  apply lookup_insert_eq.
Qed.

Lemma leaves_resolved_or_failed (texts : list string) :
  forall s outs s',
    mapM (leaf env api_key) texts s = Ret outs s' ->
    length texts + count_events is_log_error s
    <= resolved_count (dictionary (dict s')) texts outs
       + count_events is_log_error s'.
Proof.
  induction texts as [|t r IH]; intros s outs s'; simpl; unfold ret, bind.
  - intros H. apply Ret_inj in H as [<- <-]. unfold resolved_count. simpl. lia.
  - destruct (leaf env api_key t s) as [o s1| |] eqn:Hleaf; try discriminate.
    destruct (mapM (leaf env api_key) r s1) as [os s2| |] eqn:Hrest;
      try discriminate.
    intros H. apply Ret_inj in H as [<- <-].
    pose proof (IH _ _ _ Hrest) as Hcount.
    unfold resolved_count in *. cbn [zip zip_with count_if].
    destruct (leaf_resolved_or_failed _ _ _ _ Hleaf) as [[Hres Hsame]|Hfail];
      [|lia].
    assert (resolved (dictionary (dict s2)) (t, o) = true) as ->.
    { eapply resolved_mono; [|exact Hres]. intros t0 r0 H0.
      pose proof (leaves_keep_entry env api_key r t0 r0 s1 H0) as Hk.
      rewrite Hrest in Hk. exact Hk. }
    lia.
Qed.

Lemma count_if_le {A} (p : A -> bool) (l : list A) : count_if p l <= length l.
Proof.
  induction l as [|x r IH]; simpl; [lia|]. destruct (p x); lia.
Qed.

(** When every leaf is resolved, the cache is warm for the leaves and the
    results are what the cache holds. *)
Lemma all_resolved (m : gmap string string) (texts : list string) :
  forall outs,
    length outs = length texts ->
    length texts <= resolved_count m texts outs ->
    Forall (fun t => is_blank t = true \/ is_Some (m !! t)) texts /\
    outs = map (from_cache m) texts.
Proof.
  unfold resolved_count.
  induction texts as [|t r IH]; intros [|o os];
    cbn [zip zip_with count_if length map]; try discriminate.
  - auto.
  - intros Hlen Hcount. injection Hlen as Hlen.
    pose proof (count_if_le (resolved m) (zip r os)) as Hle.
    assert (Hzip : length (zip r os) = length r).
    { clear -Hlen. revert os Hlen.
      induction r as [|x r IH]; intros [|o os]; simpl; try discriminate;
        [reflexivity|].
      intros H. injection H as H. f_equal. apply IH. exact H. }
    unfold zip in *.
    destruct (resolved m (t, o)) eqn:Hres; [|lia].
    destruct (IH os Hlen) as [Hwarm Houts]; [lia|].
    unfold resolved in Hres. unfold from_cache.
    destruct (is_blank t) eqn:Hb.
    + apply bool_decide_eq_true_1 in Hres. subst o.
      split; [constructor; auto|]. rewrite Houts. reflexivity.
    + apply bool_decide_eq_true_1 in Hres.
      split; [constructor; eauto|]. rewrite Hres, Houts. reflexivity.
Qed.

End PassAccounts.

(** X23.  The progress bar after a pass that returns: its total is the
    count of the rule, and [current] is the number of leaves that are not
    blank.  Under the settings rule [current] never passes the total; under
    the contributions rule it passes it by the strings under [title] and
    [description], less the blank leaves. *)
Theorem progress_after_pass (env : Env) (api_key : string) (schema : Schema)
    (doc doc' : Value) (s s' : St) :
  run_pass env api_key schema doc s = Ret doc' s' ->
  total (bar s') = count_pass schema doc /\
  current (bar s') + blanks (leaves_of schema doc)
  = length (leaves_of schema doc) /\
  (schema = Settings ->
   current (bar s') + blanks (leaves_of schema doc) = total (bar s')) /\
  (schema = Contributions ->
   current (bar s') + blanks (leaves_of schema doc)
   = total (bar s') + title_strings doc).
Proof.
  intros Hpass. rewrite run_pass_eq in Hpass. apply pass_returns in Hpass.
  destruct (leaves_progress env api_key _ _ _ _ Hpass) as [Ht Hc].
  simpl in Ht, Hc. split; [exact Ht|]. split; [exact Hc|]. split.
  - intros ->. simpl in *. rewrite Ht, count_translatable_items_leaves. exact Hc.
  - intros ->. simpl in *. rewrite Ht, <- contributions_leaves_length. exact Hc.
Qed.

Lemma progress_after_pass_witness :
  let doc := VObj [("label", VStr "Hi"); ("title", VStr "Hello");
                   ("description", VStr "Bye")] in
  let s' := final_state (run_pass echo_env "key" Contributions doc (loaded None)) in
  total (bar s') = 1 /\ current (bar s') = 3.
Proof.
  intros doc s'.
  assert (Hrun : exists doc', run_pass echo_env "key" Contributions doc (loaded None)
                              = Ret doc' s')
    by (eexists; vm_compute; reflexivity).
  destruct Hrun as [doc' Hrun].
  destruct (progress_after_pass echo_env "key" Contributions doc doc'
              (loaded None) s' Hrun) as (Ht & Hc & _ & _).
  assert (Hb : blanks (leaves_of Contributions doc) = 0)
    by (vm_compute; reflexivity).
  split; [exact Ht|]. rewrite Hb in Hc. simpl in Hc. lia.
Defined.

(** X24.  A pass that returned without a failure of the provider can be
    repeated: run again over the same document from the state it ended in,
    with any provider and no signal, the pass returns the same document,
    sends no request, and leaves the dictionary and the cache file as they
    are. *)
Theorem pass_repeats_without_failure (env : Env) (api_key : string)
    (schema : Schema) (doc doc' : Value) (s s' : St) :
  run_pass env api_key schema doc s = Ret doc' s' ->
  count_events is_log_error s' = count_events is_log_error s ->
  forall env2 api_key2,
    (forall c, signal env2 c = false) ->
    exists s'',
      run_pass env2 api_key2 schema doc s' = Ret doc' s'' /\
      count_events is_post s'' = count_events is_post s' /\
      dict s'' = dict s' /\ dict_file s'' = dict_file s'.
Proof.
  intros Hpass Hnofail env2 key2 Hquiet.
  rewrite run_pass_eq in Hpass.
  pose proof (pass_keeps_skeleton env api_key schema _ _ _ _ Hpass) as Hskel.
  apply pass_returns in Hpass.
  pose proof (leaves_resolved_or_failed env api_key _ _ _ _ Hpass) as Hcount.
  change (count_events is_log_error (fresh_bar (count_pass schema doc) s))
    with (count_events is_log_error s) in Hcount.
  destruct (all_resolved (dictionary (dict s')) (leaves_of schema doc)
              (leaves_of schema doc')) as [Hwarm Houts].
  { eapply mapM_length. exact Hpass. }
  { lia. }
  destruct (warm_pass env2 key2 schema doc s' Hquiet Hwarm)
    as (d & s'' & Hrun & Hl & He & Hd & Hf & Hp).
  exists s''. split; [|auto].
  rewrite Hrun. f_equal. apply (erase_inj schema); congruence.
Qed.

Lemma pass_repeats_without_failure_witness :
  let doc := VObj [("title", VStr "Hello"); ("label", VStr "")] in
  let s' := final_state (run_pass echo_env "key" Settings doc (loaded None)) in
  exists s'',
    run_pass flaky_env "other" Settings doc s'
    = Ret (VObj [("title", VStr "<Hello>"); ("label", VStr "")]) s'' /\
    count_events is_post s'' = count_events is_post s' /\
    dict s'' = dict s' /\ dict_file s'' = dict_file s'.
Proof.
  intros doc s'.
  apply (pass_repeats_without_failure echo_env "key" Settings doc
           (VObj [("title", VStr "<Hello>"); ("label", VStr "")])
           (loaded None) s').
  - vm_compute. reflexivity.
  - vm_compute. reflexivity.
  - reflexivity.
Defined.

Section Requests.
Variable env : Env.
Variable api_key : string.
Hypothesis quiet : forall c, signal env c = false.

Lemma leaf_posts_mono (text : string) (s : St) :
  count_events is_post s
  <= count_events is_post (final_state (leaf env api_key text s)).
Proof.
  unfold count_events. leaf_cases env api_key text s; lia.
Qed.

Lemma leaves_posts_mono (texts : list string) (s : St) :
  count_events is_post s
  <= count_events is_post (final_state (mapM (leaf env api_key) texts s)).
Proof.
  apply (mapM_final_state (leaf env api_key)
           (fun s0 => count_events is_post s <= count_events is_post s0));
    [|lia].
  intros t s0 H. pose proof (leaf_posts_mono t s0). lia.
Qed.

(** A leaf that is neither blank nor cached costs one request, however the
    call ends. *)
Lemma leaf_cold_posts (text : string) (s : St) :
  is_blank text = false ->
  dictionary (dict s) !! text = None ->
  count_events is_post (final_state (leaf env api_key text s))
  = S (count_events is_post s).
Proof.
  intros Hb Hn. unfold count_events.
  leaf_cases env api_key text s; try reflexivity;
    try (rewrite quiet in Hsig; discriminate); congruence.
Qed.

Lemma leaves_without_request (texts : list string) :
  forall s,
    count_events is_post (final_state (mapM (leaf env api_key) texts s))
    = count_events is_post s ->
    Forall (fun t => is_blank t = true \/ is_Some (dictionary (dict s) !! t))
      texts.
Proof.
  induction texts as [|t r IH]; intros s Hposts; [constructor|].
  assert (Hcase : (is_blank t = true \/ is_Some (dictionary (dict s) !! t))
                  \/ (is_blank t = false /\ dictionary (dict s) !! t = None)).
  { destruct (is_blank t); [left; left; reflexivity|].
    destruct (dictionary (dict s) !! t); [left; right; eauto|right; auto]. }
  simpl in Hposts. unfold bind, ret in Hposts.
  destruct Hcase as [Hwarm|[Hb Hn]].
  - destruct (leaf_from_cache env api_key quiet t s Hwarm)
      as (s1 & Hleaf & Hd & _ & Hp).
    rewrite Hleaf in Hposts. constructor; [exact Hwarm|].
    rewrite <- Hd. apply IH. rewrite Hp.
    destruct (mapM (leaf env api_key) r s1); exact Hposts.
  - exfalso. pose proof (leaf_cold_posts t s Hb Hn) as Hcold.
    destruct (leaf env api_key t s) as [o s1| |] eqn:Hleaf; simpl in Hcold;
      simpl in Hposts; try lia.
    pose proof (leaves_posts_mono r s1) as Hmono.
    destruct (mapM (leaf env api_key) r s1); simpl in *; lia.
Qed.

End Requests.

(** X25.  When no signal arrives, a pass sends no request exactly when every
    leaf of the document is blank or has an entry in the dictionary the pass
    starts with: one leaf that is neither costs at least one request,
    whatever the provider answers and however the pass ends. *)
Theorem request_iff_cold_leaf (env : Env) (api_key : string) (schema : Schema)
    (doc : Value) (s : St) :
  (forall c, signal env c = false) ->
  count_events is_post (final_state (run_pass env api_key schema doc s))
  = count_events is_post s
  <-> Forall (fun t => is_blank t = true \/ is_Some (dictionary (dict s) !! t))
        (leaves_of schema doc).
Proof.
  intros Hquiet. split.
  - intros Hposts. rewrite run_pass_eq in Hposts.
    rewrite <- (final_state_fmap (leaves_of schema)), pass_leafwise in Hposts.
    apply (leaves_without_request env api_key Hquiet _ _ Hposts).
  - intros Hwarm.
    destruct (warm_pass env api_key schema doc s Hquiet Hwarm)
      as (doc' & s' & Hrun & _ & _ & _ & _ & Hp).
    rewrite Hrun. exact Hp.
Qed.

Lemma request_iff_cold_leaf_witness :
  let doc := VObj [("title", VStr "Hello"); ("label", VStr "  ")] in
  let s := loaded (Some {[ "Hello" := "Bonjour" ]}) in
  count_events is_post (final_state (run_pass flaky_env "key" Settings doc s))
  = count_events is_post s
  <-> Forall (fun t => is_blank t = true \/ is_Some (dictionary (dict s) !! t))
        (leaves_of Settings doc).
Proof.
  intros doc s. apply request_iff_cold_leaf. reflexivity.
Defined.
